(** * hedgeye_scraper: the monitoring loop, its login retry loop and the
    signal derivation, embedded from [src/hedgeye_scraper.py].

    Conventions of the embedding.
    - A Python [str] is a [string] whose characters are read as code points
      below 256; the character classes of [re] ([\w], [\s], [\b]) and
      [str.lower] are written out for that range.
    - An aware [datetime] is its instant, an integer [Z].
    - The browser, the feed page and the two senders live outside the file;
      what they answer is an explicit input of every iteration.
    - Every function returns, next to its result, the list of the calls it
      made to the outside (an [Event] list in call order). *)

From Stdlib Require Import ZArith Ascii String DecimalString Bool Lia.
From stdpp Require Import base option list strings gmap.

#[local] Set Warnings "-clear-no-such-hyp".

Local Open Scope Z_scope.

(** ** Characters and strings *)

Definition code (c : ascii) : N := N_of_ascii c.

Definition between (lo hi : N) (c : ascii) : bool :=
  ((lo <=? code c) && (code c <=? hi))%N.

(** The class [[A-Z]] of the ticker pattern. *)
Definition is_upper (c : ascii) : bool := between 65 90 c.

(** [\w] of a [str] pattern: alphanumeric (in the sense of [str.isalnum]) or
    the underscore. *)
Definition is_word (c : ascii) : bool :=
  between 48 57 c || between 65 90 c || between 95 95 c || between 97 122 c
  || between 170 170 c || between 178 179 c || between 181 181 c
  || between 185 186 c || between 188 190 c || between 192 214 c
  || between 216 246 c || between 248 255 c.

(** [\s] of a [str] pattern. *)
Definition is_space (c : ascii) : bool :=
  between 9 13 c || between 28 32 c || between 133 133 c || between 160 160 c.

(** [str.lower] on one character. *)
Definition lower_char (c : ascii) : ascii :=
  if between 65 90 c || between 192 214 c || between 216 222 c
  then ascii_of_N (code c + 32)
  else c.

(** [s.lower()] *)
Fixpoint lower (s : string) : string :=
  match s with
  | EmptyString => EmptyString
  | String c s' => String (lower_char c) (lower s')
  end.

(** [s.startswith(p)] *)
Fixpoint starts_with (p s : string) : bool :=
  match p, s with
  | EmptyString, _ => true
  | String a p', String b s' => Ascii.eqb a b && starts_with p' s'
  | String _ _, EmptyString => false
  end.

(** [needle in hay] *)
Fixpoint contains (needle hay : string) : bool :=
  starts_with needle hay ||
  match hay with
  | EmptyString => false
  | String _ hay' => contains needle hay'
  end.

Fixpoint all_chars (p : ascii -> bool) (s : string) : bool :=
  match s with
  | EmptyString => true
  | String c s' => p c && all_chars p s'
  end.

Definition head_char (s : string) : option ascii :=
  match s with
  | EmptyString => None
  | String c _ => Some c
  end.

(** The last character of [pre], or [prev] (the character before it) when
    [pre] is empty. *)
Fixpoint last_char (prev : option ascii) (pre : string) : option ascii :=
  match pre with
  | EmptyString => prev
  | String c pre' => last_char (Some c) pre'
  end.

(** [str(n)] for a natural number. *)
Definition str_of_nat (n : nat) : string := NilEmpty.string_of_uint (Nat.to_uint n).

Definition newline : string := String (ascii_of_nat 10) EmptyString.

(** ** The ticker pattern [\b([A-Z]{1,5})\b(?=\s*\$)] under [re.search] *)

Definition word_opt (o : option ascii) : bool :=
  match o with
  | Some c => is_word c
  | None => false
  end.

(** [\b] between the character before the position and the one after it
    ([None] at either end of the string). *)
Definition at_boundary (prev next : option ascii) : bool :=
  xorb (word_opt prev) (word_opt next).

(** The lookahead body [\s*\$] matched at the front of [s]: one more white
    space, or the dollar sign. *)
Fixpoint ws_then_dollar (s : string) : bool :=
  match s with
  | EmptyString => false
  | String c s' => (is_space c && ws_then_dollar s') || Ascii.eqb c "$"
  end.

(** [[A-Z]{1,5}] followed by [\b(?=\s*\$)], as the backtracking matcher runs
    it: with [budget] repetitions left it first tries one more letter, and
    when the rest fails that way it stops here, which needs one letter taken
    ([taken]), a boundary and the lookahead. The result is the text matched
    from this position on. *)
Fixpoint upper_run (budget : nat) (taken : bool) (prev : option ascii) (s : string)
  : option string :=
  let stop :=
    if taken && at_boundary prev (head_char s) && ws_then_dollar s
    then Some EmptyString else None in
  match budget, s with
  | S budget', String c s' =>
      if is_upper c then
        match upper_run budget' true (Some c) s' with
        | Some m => Some (String c m)
        | None => stop
        end
      else stop
  | _, _ => stop
  end.

(** The whole pattern tried at one position. *)
Definition match_here (prev : option ascii) (s : string) : option string :=
  if at_boundary prev (head_char s) then upper_run 5 false prev s else None.

(** [re.search]: the positions are tried from left to right, the last one
    being the end of the string. *)
Fixpoint search (prev : option ascii) (s : string) : option string :=
  match match_here prev s with
  | Some m => Some m
  | None =>
      match s with
      | EmptyString => None
      | String c s' => search (Some c) s'
      end
  end.

(** [re.search(r"\b([A-Z]{1,5})\b(?=\s*\$)", title)], as [group(0)]. *)
Definition ticker_match (title : string) : option string := search None title.

(** [ticker_match.group(0) if ticker_match else "-"] *)
Definition ticker (title : string) : string :=
  match ticker_match title with
  | Some m => m
  | None => "-"
  end.

(** The conditional expression bound to [signal_type]. *)
Definition signal_type (title : string) : string :=
  if contains "buy" (lower title) then "Buy"
  else if contains "sell" (lower title) then "Sell"
  else "None".


(** ** The outside world *)

Inductive Level := INFO | WARNING | ERROR.

(** The session built from one driver at lines 181-183. [sess_authenticated]
    records the state of the cookies it took over: those of a browser that
    had left the sign-in page, or not. *)
Record Session := {
  sess_email : string;
  sess_authenticated : bool
}.

(** The calls to the outside that are recorded, in the order the code makes
    them. Starting and quitting a browser, and the think times inside
    [login] and [random_scroll], whose durations the source draws at random,
    are not recorded. *)
Inductive Event :=
| EvLog (level : Level) (text : string)         (* log_message *)
| EvScroll (max_time : nat)                     (* random_scroll(driver, max_time) *)
| EvSubmit (email password : string)            (* the form filled and RETURN sent *)
| EvFetch (index : nat) (session : Session)     (* fetch_alert_details(session) *)
| EvTelegram (message : string)                 (* send_telegram_message *)
| EvWs (payload : gmap string string)           (* send_ws_message *)
| EvSleep (ms : nat)                            (* asyncio.sleep, in milliseconds *)
| EvSleepUntilOpen.                             (* sleep_until_market_open *)

(** How a call to the outside ends. *)
Inductive CallResult := Returns | Raises (e : string).

(** The dictionary returned by [fetch_alert_details]; its four keys are
    always present. *)
Record AlertDetails := {
  title : string;
  price : string;
  created_at : string;
  current_time : string
}.

(** What [fetch_alert_details] does on one call: [None], a dictionary, or
    an exception ([session.get] and [datetime.fromisoformat] are outside
    its [try] blocks). *)
Inductive Fetched :=
| FetchNone
| FetchAlert (a : AlertDetails)
| FetchRaises (e : string).

(** What the outside does while one session is polled. *)
Record PollEnv := {
  fetched : Fetched;
  telegram_result : CallResult;
  ws_result : CallResult
}.

(** The sign-in site as one driver sees it: after [n] submissions of the
    form, is [driver.current_url] still the sign-in page? *)
Definition Site := nat -> bool.

(** Everything one iteration of [while True] reads from the outside. *)
Record Input := {
  pre_market_login_time : Z;
  market_open_time : Z;
  market_close_time : Z;
  current_time_edt : Z;
  site : string -> string -> Site;       (* per account (email, password) *)
  world : nat -> PollEnv                 (* per position in [sessions] *)
}.

(** ** [login] *)

(** The body of [while driver.current_url == login_url and retry_count < 5],
    run at most [fuel] times. [retry_count] is also the number of
    submissions the driver has made, both start at 0 and grow together. *)
Fixpoint login_loop (st : Site) (email password : string)
    (fuel retry_count : nat) : nat * list Event :=
  match fuel with
  | O => (retry_count, [])
  | S fuel' =>
      if st retry_count && (retry_count <? 5)%nat then
        let warn :=
          if (0 <? retry_count)%nat
          then [EvLog WARNING ("Login failed for " +:+ email +:+ ". Retry attempt "
                               +:+ str_of_nat retry_count +:+ "...")]
          else [] in
        let '(n, ev) := login_loop st email password fuel' (S retry_count) in
        (n, warn ++ [EvScroll (10 + retry_count * 5); EvSubmit email password] ++ ev)
      else (retry_count, [])
  end.

(** [login(driver, email, password)]: the returned flag, the number of
    submissions made and the calls. *)
Definition login (st : Site) (email password : string) : bool * nat * list Event :=
  let '(n, ev) := login_loop st email password 5 0 in
  if st n
  then (false, n,
        ev ++ [EvLog ERROR ("Login failed after 5 attempts for " +:+ email +:+ ". Aborting.")])
  else (true, n, ev).

(** ** The monitoring pass *)

Inductive Completion := Normal | Raised (e : string).

(** The f-string bound to [message]. *)
Definition message_of (a : AlertDetails) : string :=
  "Title: " +:+ title a +:+ newline +:+
  "Price: " +:+ price a +:+ newline +:+
  "Created At: " +:+ created_at a +:+ newline +:+
  "Current Time: " +:+ current_time a.

(** The dictionary handed to [send_ws_message]. *)
Definition payload_of (a : AlertDetails) : gmap string string :=
  {[ "name" := "Hedgeye";
     "type" := signal_type (title a);
     "ticker" := ticker (title a);
     "sender" := "hedgeye" ]}.

(** The dictionary assigned to [last_alert_details] at lines 234-237. *)
Definition seen_mark (a : AlertDetails) : gmap string string :=
  {[ "title" := title a; "created_at" := created_at a ]}.

(** The test of line 201; [dict.get] gives [None] for a missing key, which
    differs from every string. *)
Definition is_new (a : AlertDetails) (last_alert_details : gmap string string) : bool :=
  bool_decide (last_alert_details !! "title" ≠ Some (title a)).

(** The body of [for session in sessions] for one session (lines 195-238):
    how it ends, the new [last_alert_details], the calls made. *)
Definition poll_session (w : PollEnv) (index : nat) (session : Session)
    (last_alert_details : gmap string string)
  : Completion * gmap string string * list Event :=
  match fetched w with
  | FetchRaises e => (Raised e, last_alert_details, [EvFetch index session])
  | FetchNone =>
      (Normal, last_alert_details,
       [EvFetch index session;
        EvLog INFO "Current alert not interesting to us...";
        EvSleep 700])
  | FetchAlert a =>
      if is_new a last_alert_details then
        match telegram_result w with
        | Raises e =>
            (Raised e, last_alert_details,
             [EvFetch index session; EvTelegram (message_of a)])
        | Returns =>
            match ws_result w with
            | Raises e =>
                (Raised e, last_alert_details,
                 [EvFetch index session; EvTelegram (message_of a); EvWs (payload_of a)])
            | Returns =>
                (Normal, seen_mark a,
                 [EvFetch index session; EvTelegram (message_of a); EvWs (payload_of a);
                  EvLog INFO ("New alert sent: " +:+ message_of a);
                  EvSleep 600])
            end
        end
      else (Normal, last_alert_details, [EvFetch index session; EvSleep 600])
  end.

(** The [for] loop of line 194 from position [index] on; an exception leaves
    the loop at once. *)
Fixpoint poll_sessions (w : nat -> PollEnv) (index : nat) (ss : list Session)
    (last_alert_details : gmap string string)
  : Completion * gmap string string * list Event :=
  match ss with
  | [] => (Normal, last_alert_details, [])
  | session :: rest =>
      match poll_session (w index) index session last_alert_details with
      | (Normal, last', ev) =>
          let '(c, last'', ev') := poll_sessions w (S index) rest last' in
          (c, last'', ev ++ ev')
      | (Raised e, last', ev) => (Raised e, last', ev)
      end
  end.

(** ** [monitor_feeds_async] *)

(** The local variables of [monitor_feeds_async] and the global
    [last_alert_details]. [sessions] is unbound in the source until the
    first login; it is the empty list here. *)
Record LoopState := {
  market_is_open : bool;
  logged_in : bool;
  first_time_ever : bool;
  sessions : list Session;
  last_alert_details : gmap string string
}.

(** The state at the first test of [while True]. *)
Definition initial_state : LoopState :=
  {| market_is_open := false; logged_in := false; first_time_ever := true;
     sessions := []; last_alert_details := ∅ |}.

Inductive Phase := PRE_OPEN_LOGIN | OPEN | CLOSED.

(** [pre_market_login_time <= current_time_edt < market_open_time] *)
Definition in_pre_open (i : Input) : bool :=
  (pre_market_login_time i <=? current_time_edt i) && (current_time_edt i <? market_open_time i).

(** [market_open_time <= current_time_edt <= market_close_time] *)
Definition in_open (i : Input) : bool :=
  (market_open_time i <=? current_time_edt i) && (current_time_edt i <=? market_close_time i).

(** The branch of the [if]/[elif]/[else] at lines 166, 189 and 243 that runs. *)
Definition branch (first_time_ever : bool) (i : Input) : Phase :=
  if in_pre_open i || first_time_ever then PRE_OPEN_LOGIN
  else if in_open i then OPEN
  else CLOSED.

(** The phase of an instant: the branch taken once [first_time_ever] is
    cleared. *)
Definition current_phase (i : Input) : Phase := branch false i.

(** The [for] loop over [enumerate(accounts)] (lines 175-184) from position
    [index] on: the sessions appended and the calls. The flag returned by
    [login] is dropped by the caller; a session is built for every account. *)
Fixpoint login_accounts (st : string -> string -> Site) (index : nat)
    (accounts : list (string * string)) : list Session * list Event :=
  match accounts with
  | [] => ([], [])
  | (email, password) :: rest =>
      let '(ok, _, ev) := login (st email password) email password in
      let session := {| sess_email := email; sess_authenticated := ok |} in
      let '(ss, ev') := login_accounts st (S index) rest in
      (session :: ss,
       ev ++ [EvLog INFO ("Logged in with account " +:+ str_of_nat (index + 1) +:+ ": " +:+ email)]
          ++ ev')
  end.

Section Loop.

Variable accounts : list (string * string).

(** One iteration of [while True]. *)
Definition step (i : Input) (s : LoopState) : LoopState * list Event :=
  match branch (first_time_ever s) i with
  | PRE_OPEN_LOGIN =>
      if logged_in s then
        ({| market_is_open := market_is_open s; logged_in := true;
            first_time_ever := false; sessions := sessions s;
            last_alert_details := last_alert_details s |}, [])
      else
        let '(ss, ev) := login_accounts (site i) 0 accounts in
        ({| market_is_open := market_is_open s; logged_in := true;
            first_time_ever := false; sessions := ss;
            last_alert_details := last_alert_details s |},
         [EvLog INFO "Logging in..."] ++ ev
         ++ [EvLog INFO "All accounts logged in. Starting monitoring..."])
  | OPEN =>
      let opening :=
        if market_is_open s then []
        else [EvLog INFO "Market is open, starting monitoring..."] in
      let '(c, last', ev) := poll_sessions (world i) 0 (sessions s) (last_alert_details s) in
      let caught :=
        match c with
        | Normal => []
        | Raised e => [EvLog ERROR ("Error: " +:+ e); EvSleep 700]
        end in
      ({| market_is_open := true; logged_in := logged_in s;
          first_time_ever := first_time_ever s; sessions := sessions s;
          last_alert_details := last' |},
       opening ++ ev ++ caught)
  | CLOSED =>
      ({| market_is_open := false; logged_in := false;
          first_time_ever := first_time_ever s; sessions := sessions s;
          last_alert_details := last_alert_details s |},
       [EvSleepUntilOpen])
  end.

(** The loop run for as many iterations as there are inputs. *)
Fixpoint run (inputs : list Input) (s : LoopState) : LoopState * list Event :=
  match inputs with
  | [] => (s, [])
  | i :: rest =>
      let '(s', ev) := step i s in
      let '(s'', ev') := run rest s' in
      (s'', ev ++ ev')
  end.

End Loop.

(** ** [fetch_alert_details] *)

(** What one [soup.select_one(...)] and the read of its text (or of its
    attribute) give: no such element, the text, or an exception. *)
Inductive Lookup :=
| Missing
| Found (text : string)
| LookupRaises (e : string).

(** The parsed feed page as [fetch_alert_details] looks at it: the element
    [.article__header], the element [.currency.se-live-or-close-price] and
    the [datetime] attribute of the first [time[datetime]] element. *)
Record Page := {
  article_header : Lookup;
  live_price : Lookup;
  time_datetime : Lookup
}.

(** How [session.get] ends. *)
Inductive Response :=
| GetRaises (e : string)
| Got (page : Page).

(** How the reading of a time stamp ends. *)
Inductive Parsed :=
| ParsedAs (text : string)
| ParseRaises (e : string).

(** [s.replace("Z", "+00:00")] *)
Fixpoint replace_Z (s : string) : string :=
  match s with
  | EmptyString => EmptyString
  | String c s' =>
      if Ascii.eqb c "Z" then "+00:00" +:+ replace_Z s'
      else String c (replace_Z s')
  end.

(** The message of the [TypeError] raised by [None["datetime"]]. *)
Definition none_not_subscriptable : string :=
  "'NoneType' object is not subscriptable".

Section Fetch.

(** [datetime.fromisoformat(s).astimezone(edt).strftime("%Y-%m-%d %H:%M:%S %Z%z")],
    which belongs to the [datetime] and [pytz] libraries; [fromisoformat]
    raises on a text it cannot read. *)
Variable edt_of_iso : string -> Parsed.

(** [datetime.now(pytz.utc).astimezone(edt).strftime(...)] at the call. *)
Variable now_edt : string.

(** [fetch_alert_details(session)] on the answer [r] of [session.get]: what
    it returns or raises, and the log entries it writes. A [bs4] element is
    true whatever its text, so a found header with empty text goes on. *)
Definition fetch_alert_details (r : Response) : Fetched * list Event :=
  match r with
  | GetRaises e => (FetchRaises e, [])
  | Got page =>
      match article_header page with
      | Missing => (FetchNone, [])
      | LookupRaises e =>
          (FetchNone, [EvLog ERROR ("Failed to fetch alert title: " +:+ e)])
      | Found alert_title =>
          match live_price page with
          | Missing => (FetchNone, [])
          | LookupRaises e =>
              (FetchNone, [EvLog ERROR ("Failed to fetch alert price: " +:+ e)])
          | Found alert_price =>
              let failed e :=
                (FetchNone,
                 [EvLog ERROR ("Failed to fetch or parse created_at_utc: " +:+ e)]) in
              match time_datetime page with
              | Missing => failed none_not_subscriptable
              | LookupRaises e => failed e
              | Found created_at_utc =>
                  match edt_of_iso (replace_Z created_at_utc) with
                  | ParseRaises e => (FetchRaises e, [])
                  | ParsedAs created_at_edt =>
                      (FetchAlert {| title := alert_title;
                                     price := alert_price;
                                     created_at := created_at_edt;
                                     current_time := now_edt |}, [])
                  end
              end
          end
      end
  end.

(** One session polled on the answer [r], the two senders answering [tg]
    and [wr]. *)
Definition poll_response (r : Response) (tg wr : CallResult) (index : nat)
    (session : Session) (last_alert_details : gmap string string)
  : Completion * gmap string string * list Event :=
  poll_session {| fetched := (fetch_alert_details r).1;
                  telegram_result := tg; ws_result := wr |}
               index session last_alert_details.

End Fetch.

(** ** Reading a list of calls *)

Definition telegram_calls (ev : list Event) : list string :=
  omap (λ e, match e with EvTelegram m => Some m | _ => None end) ev.

Definition ws_calls (ev : list Event) : list (gmap string string) :=
  omap (λ e, match e with EvWs p => Some p | _ => None end) ev.

Definition fetch_calls (ev : list Event) : list nat :=
  omap (λ e, match e with EvFetch k _ => Some k | _ => None end) ev.

Definition submit_calls (ev : list Event) : list string :=
  omap (λ e, match e with EvSubmit email _ => Some email | _ => None end) ev.

Definition scroll_calls (ev : list Event) : list nat :=
  omap (λ e, match e with EvScroll t => Some t | _ => None end) ev.

Definition sleep_calls (ev : list Event) : list nat :=
  omap (λ e, match e with EvSleep ms => Some ms | _ => None end) ev.


Definition error_logs (ev : list Event) : list string :=
  omap (λ e, match e with EvLog ERROR t => Some t | _ => None end) ev.

Definition is_found (l : Lookup) : bool :=
  match l with
  | Found _ => true
  | _ => false
  end.

(** The page shows the three things [fetch_alert_details] reads. *)
Definition page_complete (page : Page) : bool :=
  is_found (article_header page) && is_found (live_price page)
  && is_found (time_datetime page).

(** The fetches ([true]) and the pauses ([false]) of a list of calls, in
    order. *)
Definition pace (ev : list Event) : list bool :=
  omap (λ e, match e with
             | EvFetch _ _ => Some true
             | EvSleep _ => Some false
             | _ => None
             end) ev.

(** [n] times a fetch followed by a pause. *)
Fixpoint fetch_then_pause (n : nat) : list bool :=
  match n with
  | O => []
  | S n' => true :: false :: fetch_then_pause n'
  end.

(** The calls a login can make: log entries, scrolling, submissions. *)
Definition login_event (e : Event) : bool :=
  match e with
  | EvLog _ _ | EvScroll _ | EvSubmit _ _ => true
  | _ => false
  end.

(** Every session sees the same page and both senders answer. *)
Definition same_for_all (a : AlertDetails) : nat -> PollEnv :=
  λ _, {| fetched := FetchAlert a; telegram_result := Returns; ws_result := Returns |}.

(** The session at position [index] sees [a], every other one sees [b];
    both senders answer. *)
Definition split_view (index : nat) (a b : AlertDetails) : nat -> PollEnv :=
  λ k, {| fetched := FetchAlert (if (k =? index)%nat then a else b);
          telegram_result := Returns; ws_result := Returns |}.

(** ** Sample data for the worked runs *)

Definition alert_titled (t : string) : AlertDetails :=
  {| title := t; price := "150.00";
     created_at := "2024-03-04 10:00:00 EST-0500";
     current_time := "2024-03-04 10:00:05 EST-0500" |}.

(** Nothing on the feed page and both senders in order. *)
Definition quiet : PollEnv :=
  {| fetched := FetchNone; telegram_result := Returns; ws_result := Returns |}.

(** The first session sees an alert titled [t]; the senders answer [tg]
    and [wr]. *)
Definition feed (t : string) (tg wr : CallResult) : nat -> PollEnv :=
  λ k, if (k =? 0)%nat
       then {| fetched := FetchAlert (alert_titled t);
               telegram_result := tg; ws_result := wr |}
       else quiet.

Definition two_accounts : list (string * string) :=
  [("a@x", "pw1"); ("b@x", "pw2")].

(** The site never lets "a@x" in and lets everybody else in at the first
    submission. *)
Definition site_rejecting_a : string -> string -> Site :=
  λ email _ n, if String.eqb email "a@x" then true else (n <? 1)%nat.

(** An iteration at instant [now] of the day shifted by [day], whose
    schedule is login at 100, open at 200, close at 300. *)
Definition at_time (day now : Z) (w : nat -> PollEnv) : Input :=
  {| pre_market_login_time := day + 100; market_open_time := day + 200;
     market_close_time := day + 300; current_time_edt := day + now;
     site := site_rejecting_a; world := w |}.

(** Three sessions in a pass where the first sees a new alert, the fetch of
    the second raises, and the third would see another new alert. *)
Definition three_sessions : list Session :=
  [ {| sess_email := "a@x"; sess_authenticated := true |};
    {| sess_email := "b@x"; sess_authenticated := true |};
    {| sess_email := "c@x"; sess_authenticated := true |} ].

Definition second_fetch_raises : nat -> PollEnv :=
  λ k, match k with
       | 0%nat => {| fetched := FetchAlert (alert_titled "Buy AAPL $150");
                     telegram_result := Returns; ws_result := Returns |}
       | 1%nat => {| fetched := FetchRaises "connection reset";
                     telegram_result := Returns; ws_result := Returns |}
       | _ => {| fetched := FetchAlert (alert_titled "Sell TSLA $700");
                 telegram_result := Returns; ws_result := Returns |}
       end.

Definition monitoring_three : LoopState :=
  {| market_is_open := true; logged_in := true; first_time_ever := false;
     sessions := three_sessions; last_alert_details := ∅ |}.

(** The state at a close, one account logged in and "Buy AAPL $150" stored. *)
Definition after_dispatch : LoopState :=
  {| market_is_open := true; logged_in := true; first_time_ever := false;
     sessions := [ {| sess_email := "b@x"; sess_authenticated := true |} ];
     last_alert_details := seen_mark (alert_titled "Buy AAPL $150") |}.

(** Two trading days with one account: login before the open, one alert
    dispatched, the close, the login of the next day. *)
Definition one_account : list (string * string) := [("b@x", "pw2")].

Definition two_days : list Input :=
  [ at_time 0 150 (λ _, quiet);
    at_time 0 250 (feed "Buy AAPL $150" Returns Returns);
    at_time 0 350 (λ _, quiet);
    at_time 1000 150 (λ _, quiet) ].

(** A feed page with an alert, the same page without its price, and a
    reading of time stamps that accepts only texts with an explicit
    offset. *)
Definition sample_page : Page :=
  {| article_header := Found "Buy AAPL $150";
     live_price := Found "$150.00";
     time_datetime := Found "2024-03-04T15:00:00Z" |}.

Definition page_without_price : Page :=
  {| article_header := Found "Buy AAPL $150";
     live_price := Missing;
     time_datetime := Found "2024-03-04T15:00:00Z" |}.

Definition sample_edt_of_iso : string -> Parsed :=
  λ s, if contains "+" s then ParsedAs ("EDT " +:+ s)
       else ParseRaises "Invalid isoformat string".

(** ** Predicates used to state the properties *)

(** [sub] occurs in [s]. *)
Definition has_substring (sub s : string) : Prop :=
  ∃ pre post, s = pre +:+ sub +:+ post.

(** [post] begins with white space, possibly none, and then a dollar sign. *)
Definition dollar_follows (post : string) : Prop :=
  ∃ ws rest, post = ws +:+ "$" +:+ rest ∧ all_chars is_space ws = true.

(** [s], which comes after the character [prev], splits as [pre ++ w ++ post]
    where [w] is one to five uppercase letters, no word character stands
    just before [w], and [post] begins with optional white space and a
    dollar sign. *)
Definition token_after (prev : option ascii) (s pre w post : string) : Prop :=
  s = pre +:+ w +:+ post ∧
  all_chars is_upper w = true ∧
  (1 ≤ String.length w ≤ 5)%nat ∧
  word_opt (last_char prev pre) = false ∧
  dollar_follows post.

Definition ticker_token (title pre w post : string) : Prop :=
  token_after None title pre w post.

Definition upper_opt (o : option ascii) : bool :=
  match o with
  | Some c => is_upper c
  | None => false
  end.

(** The character [c] is the lowercase letter [x] or its capital. *)
Definition letter_ignoring_case (x c : ascii) : Prop :=
  c = x ∨ (is_upper c = true ∧ (code c + 32)%N = code x).

(** The text [m] spells the lowercase word [w], letter by letter, in
    whatever mix of capitals and small letters. *)
Fixpoint spells_ignoring_case (w m : string) : Prop :=
  match w, m with
  | EmptyString, EmptyString => True
  | String x w', String c m' =>
      letter_ignoring_case x c ∧ spells_ignoring_case w' m'
  | _, _ => False
  end.

(** The word [w] occurs in [s] in some mix of capitals and small letters. *)
Definition occurs_ignoring_case (w s : string) : Prop :=
  ∃ pre m post, s = pre +:+ m +:+ post ∧ spells_ignoring_case w m.

(** The token in the words of the specification: a run of one to five
    uppercase letters (no uppercase letter continues it on either side)
    followed, after optional white space, by a dollar sign. *)
Definition spec_token (title pre w post : string) : Prop :=
  title = pre +:+ w +:+ post ∧
  all_chars is_upper w = true ∧
  (1 ≤ String.length w ≤ 5)%nat ∧
  upper_opt (last_char None pre) = false ∧
  upper_opt (head_char post) = false ∧
  dollar_follows post.

(** * Properties *)

(** ** Strings *)

Lemma app_cons c (s t : string) : String c s +:+ t = String c (s +:+ t).
Proof. reflexivity. Qed.

Lemma app_empty_l (s : string) : "" +:+ s = s.
Proof. reflexivity. Qed.

Lemma starts_with_spec p s : starts_with p s = true ↔ ∃ post, s = p +:+ post.
Proof.
  revert s. induction p as [|a p IH]; intros s.
  - split; [|done]. intros _. by exists s.
  - destruct s as [|b s]; simpl.
    + split; [done|]. by intros [post ?].
    + rewrite andb_true_iff, IH, Ascii.eqb_eq. split.
      * intros [-> [post ->]]. by exists post.
      * intros [post Heq]. rewrite app_cons in Heq. simplify_eq. eauto.
Qed.

Lemma contains_spec sub s : contains sub s = true ↔ has_substring sub s.
Proof.
  unfold has_substring. induction s as [|c s IH].
  - simpl. rewrite orb_false_r, starts_with_spec. split.
    + intros [post ->]. by exists "", post.
    + intros [[|? pre] [post Heq]]; [by exists post|].
      by rewrite app_cons in Heq.
  - simpl. rewrite orb_true_iff, IH, starts_with_spec. split.
    + intros [[post ->]|(pre & post & ->)].
      * by exists "", post.
      * by exists (String c pre), post.
    + intros [[|a pre] [post Heq]].
      * left. by exists post.
      * right. rewrite app_cons in Heq. simplify_eq. by exists pre, post.
Qed.

Lemma code_inj (c x : ascii) : code c = code x → c = x.
Proof.
  unfold code. intros H.
  by rewrite <- (ascii_N_embedding c), <- (ascii_N_embedding x), H.
Qed.

Lemma code_lower_char c :
  code (lower_char c) =
  if between 65 90 c || between 192 214 c || between 216 222 c
  then (code c + 32)%N else code c.
Proof. destruct c as [[] [] [] [] [] [] [] []]; by vm_compute. Qed.

(** Lowercasing a character gives the small letter [x] exactly for [x]
    itself and for its capital. *)
Lemma lower_char_letter (x c : ascii) :
  between 97 122 x = true →
  Ascii.eqb x (lower_char c) = true ↔ letter_ignoring_case x c.
Proof.
  intros Hx. rewrite Ascii.eqb_eq. unfold letter_ignoring_case, is_upper.
  assert (Hiff : x = lower_char c ↔ code x = code (lower_char c)).
  { split; [by intros ->|apply code_inj]. }
  assert (Hcx : c = x ↔ code c = code x).
  { split; [by intros ->|apply code_inj]. }
  rewrite Hiff, Hcx, code_lower_char. clear Hiff Hcx.
  unfold between in *.
  apply andb_true_iff in Hx as [Hx1%N.leb_le Hx2%N.leb_le].
  destruct (N.leb_spec 65 (code c)), (N.leb_spec (code c) 90),
           (N.leb_spec 192 (code c)), (N.leb_spec (code c) 214),
           (N.leb_spec 216 (code c)), (N.leb_spec (code c) 222);
    simpl; split; intros; try lia; intuition (try lia; try discriminate).
Qed.

Lemma starts_with_lower (w t : string) :
  all_chars (between 97 122) w = true →
  starts_with w (lower t) = true ↔
  ∃ m post, t = m +:+ post ∧ spells_ignoring_case w m.
Proof.
  revert t. induction w as [|x w IH]; intros t Hw.
  - split; [|done]. intros _. by exists "", t.
  - simpl in Hw. apply andb_true_iff in Hw as [Hx Hw].
    destruct t as [|c t]; simpl.
    + split; [done|]. intros ([|??] & post & Heq & Hs); [done|].
      by rewrite app_cons in Heq.
    + rewrite andb_true_iff, (IH t Hw), (lower_char_letter x c Hx). split.
      * intros [Hl (m & post & -> & Hs)]. by exists (String c m), post.
      * intros ([|c' m] & post & Heq & Hs); [done|].
        rewrite app_cons in Heq. simplify_eq. destruct Hs as [Hl Hs]. eauto.
Qed.

(** What [w in title.lower()] decides, told without [lower]. *)
Lemma contains_lower (w t : string) :
  all_chars (between 97 122) w = true →
  contains w (lower t) = true ↔ occurs_ignoring_case w t.
Proof.
  intros Hw. unfold occurs_ignoring_case. induction t as [|c t IH].
  - simpl lower. cbn [contains]. rewrite orb_false_r.
    change EmptyString with (lower ""). rewrite (starts_with_lower w "" Hw). split.
    + intros (m & post & Heq & Hs). by exists "", m, post.
    + intros ([|??] & m & post & Heq & Hs); [|by rewrite app_cons in Heq].
      by exists m, post.
  - cbn [lower contains]. rewrite orb_true_iff, IH.
    change (String (lower_char c) (lower t)) with (lower (String c t)).
    rewrite (starts_with_lower w (String c t) Hw). split.
    + intros [(m & post & Heq & Hs)|(pre & m & post & -> & Hs)].
      * by exists "", m, post.
      * by exists (String c pre), m, post.
    + intros ([|c' pre] & m & post & Heq & Hs).
      * left. by exists m, post.
      * right. rewrite app_cons in Heq. simplify_eq. by exists pre, m, post.
Qed.

(** ** C6: the direction of the signal *)

(** C6. The direction is "Buy" exactly when the title contains "buy" in any
    mix of capitals and small letters, that is, when the lowercased title
    contains "buy"; it is "Sell" exactly when the title contains "sell" in
    that sense and not "buy"; it is "None" exactly when it contains neither.
    The test for "buy" comes first, so a title with both words is a Buy,
    and this value is the "type" field of the payload handed to the message
    bus. *)
Theorem signal_type_buy_before_sell (a : AlertDetails) :
  let t := title a in
  (signal_type t = "Buy" ↔ occurs_ignoring_case "buy" t) ∧
  (signal_type t = "Sell" ↔
     ¬ occurs_ignoring_case "buy" t ∧ occurs_ignoring_case "sell" t) ∧
  (signal_type t = "None" ↔
     ¬ occurs_ignoring_case "buy" t ∧ ¬ occurs_ignoring_case "sell" t) ∧
  (occurs_ignoring_case "buy" t ↔ has_substring "buy" (lower t)) ∧
  (occurs_ignoring_case "sell" t ↔ has_substring "sell" (lower t)) ∧
  payload_of a !! "type" = Some (signal_type t) ∧
  signal_type "buy and sell signal $X" = "Buy" ∧
  signal_type "Buy AAPL $150" = "Buy" ∧
  signal_type "SELL TSLA $700" = "Sell" ∧
  signal_type "We SeLl, then BUY back" = "Buy" ∧
  signal_type "Update on MSFT" = "None".
Proof.
  intros t.
  assert (Hty : payload_of a !! "type" = Some (signal_type t)) by done.
  pose proof (contains_lower "buy" t eq_refl) as Hb.
  pose proof (contains_lower "sell" t eq_refl) as Hs.
  split_and!; [| | | | |exact Hty|reflexivity..].
  1-3: unfold signal_type; rewrite <- ?Hb, <- ?Hs;
       destruct (contains "buy" (lower t)), (contains "sell" (lower t));
       intuition congruence.
  - by rewrite <- Hb, contains_spec.
  - by rewrite <- Hs, contains_spec.
Qed.

(** ** C5: the ticker *)

Lemma upper_is_word c : is_upper c = true → is_word c = true.
Proof. unfold is_upper, is_word. intros ->. by rewrite orb_true_r. Qed.

Lemma space_not_word c : is_space c = true → is_word c = false.
Proof. destruct c as [[] [] [] [] [] [] [] []]; by vm_compute. Qed.

Lemma space_not_upper c : is_space c = true → is_upper c = false.
Proof. destruct c as [[] [] [] [] [] [] [] []]; by vm_compute. Qed.

Lemma ws_then_dollar_spec s : ws_then_dollar s = true ↔ dollar_follows s.
Proof.
  unfold dollar_follows. induction s as [|c s IH]; simpl.
  - split; [done|]. intros ([|??] & rest & Heq & _); by rewrite ?app_cons in Heq.
  - rewrite orb_true_iff, andb_true_iff, IH, Ascii.eqb_eq. split.
    + intros [[Hc (ws & rest & -> & Hws)]| ->].
      * exists (String c ws), rest. simpl. by rewrite Hc, Hws.
      * by exists "", s.
    + intros ([|a ws] & rest & Heq & Hws); rewrite ?app_cons, ?app_empty_l in Heq;
        simplify_eq; [by right|].
      simpl in Hws. apply andb_true_iff in Hws as [? ?]. left. eauto.
Qed.

(** What follows a match begins with a character that is neither a letter of
    the run nor a word character. *)
Lemma ws_then_dollar_head s :
  ws_then_dollar s = true →
  ∃ c s', s = String c s' ∧ is_word c = false ∧ is_upper c = false.
Proof.
  destruct s as [|c s]; simpl; [done|].
  rewrite orb_true_iff, andb_true_iff, Ascii.eqb_eq.
  intros [[Hc _]| ->]; exists c, s || exists "$"%char, s.
  - auto using space_not_word, space_not_upper.
  - done.
Qed.

Lemma stop_sound (budget : nat) (taken : bool) prev s m :
  (if taken && at_boundary prev (head_char s) && ws_then_dollar s
   then Some EmptyString else None) = Some m →
  ∃ post, s = m +:+ post ∧ all_chars is_upper m = true ∧
          (String.length m ≤ budget)%nat ∧ (m = "" → taken = true) ∧
          ws_then_dollar post = true.
Proof.
  destruct (taken && at_boundary prev (head_char s) && ws_then_dollar s) eqn:E; [|done].
  intros ?; simplify_eq.
  apply andb_true_iff in E as [E ?]. apply andb_true_iff in E as [-> _].
  exists s. split_and!; simpl; auto with lia.
Qed.

Lemma upper_run_sound budget taken prev s m :
  upper_run budget taken prev s = Some m →
  ∃ post, s = m +:+ post ∧ all_chars is_upper m = true ∧
          (String.length m ≤ budget)%nat ∧ (m = "" → taken = true) ∧
          ws_then_dollar post = true.
Proof.
  revert taken prev s m.
  induction budget as [|b IH]; intros taken prev s m H.
  - destruct s; simpl in H; eapply stop_sound, H.
  - destruct s as [|c s]; simpl in H; [eapply stop_sound, H|].
    destruct (is_upper c) eqn:Hc; [|eapply stop_sound, H].
    destruct (upper_run b true (Some c) s) as [m'|] eqn:E; [|eapply stop_sound, H].
    simplify_eq.
    destruct (IH _ _ _ _ E) as (post & -> & Hup & Hlen & _ & Hws).
    exists post. rewrite app_cons. simpl. rewrite Hc, Hup.
    split_and!; auto with lia. done.
Qed.

Lemma upper_run_complete budget taken prev m post :
  all_chars is_upper m = true →
  (String.length m ≤ budget)%nat →
  (m = "" → taken = true ∧ word_opt prev = true) →
  ws_then_dollar post = true →
  upper_run budget taken prev (m +:+ post) = Some m.
Proof.
  revert taken prev budget.
  induction m as [|c m IH]; intros taken prev budget Hup Hlen Hm Hws.
  - destruct Hm as [-> Hprev]; [done|]. rewrite app_empty_l.
    destruct (ws_then_dollar_head _ Hws) as (c & s' & -> & Hw & Hu).
    assert (Hstop : (if true && at_boundary prev (head_char (String c s'))
                           && ws_then_dollar (String c s')
                     then Some EmptyString else None) = Some "").
    { unfold at_boundary. simpl head_char. simpl word_opt.
      by rewrite Hprev, Hw, Hws. }
    destruct budget; simpl upper_run; [done|]. by rewrite Hu.
  - simpl in Hup, Hlen. apply andb_true_iff in Hup as [Hc Hup].
    destruct budget as [|b]; [lia|].
    rewrite app_cons. simpl. rewrite Hc.
    rewrite (IH true (Some c) b); auto with lia.
    intros _. split; [done|]. by apply upper_is_word.
Qed.

(** The pattern matches at the position after [prev] exactly when no word
    character stands before it and the text starts with one to five
    uppercase letters followed by [\s*\$]. *)
Lemma match_here_spec prev s w :
  match_here prev s = Some w ↔
  word_opt prev = false ∧
  ∃ post, s = w +:+ post ∧ all_chars is_upper w = true ∧
          (1 ≤ String.length w ≤ 5)%nat ∧ ws_then_dollar post = true.
Proof.
  unfold match_here. split.
  - destruct (at_boundary prev (head_char s)) eqn:Hb; [|done].
    intros (post & -> & Hup & Hlen & Hne & Hws)%upper_run_sound.
    destruct w as [|c w]; [by specialize (Hne eq_refl)|].
    simpl in Hup. apply andb_true_iff in Hup as [Hc Hup].
    unfold at_boundary in Hb. rewrite app_cons in Hb. simpl in Hb.
    rewrite (upper_is_word _ Hc) in Hb.
    split; [by destruct (word_opt prev)|].
    exists post. simpl. rewrite Hc, Hup. split_and!; auto with lia.
  - intros (Hprev & post & -> & Hup & [Hlo Hhi] & Hws).
    destruct w as [|c w]; [simpl in Hlo; lia|].
    pose proof Hup as Hup'. simpl in Hup'. apply andb_true_iff in Hup' as [Hc _].
    unfold at_boundary. rewrite app_cons. simpl head_char. simpl word_opt.
    rewrite Hprev, (upper_is_word _ Hc). simpl xorb. cbv iota.
    rewrite <- app_cons. by apply upper_run_complete.
Qed.

Lemma match_here_token prev s w :
  match_here prev s = Some w ↔ ∃ post, token_after prev s "" w post.
Proof.
  rewrite match_here_spec. unfold token_after. simpl last_char.
  setoid_rewrite app_empty_l. setoid_rewrite <- ws_then_dollar_spec.
  split.
  - intros (? & post & ?). exists post. tauto.
  - intros (post & ?). split; [tauto|]. exists post. tauto.
Qed.

Lemma token_after_cons prev c s pre w post :
  token_after prev (String c s) (String c pre) w post ↔
  token_after (Some c) s pre w post.
Proof.
  unfold token_after. rewrite app_cons. simpl last_char.
  split; intros (Heq & Hrest); (split; [congruence|exact Hrest]).
Qed.

(** A token whose [pre] is not empty lies in the tail of the string. *)
Lemma token_after_inv prev s pre w post :
  token_after prev s pre w post →
  (pre = "" ∧ match_here prev s = Some w) ∨
  (∃ c s' pre', s = String c s' ∧ pre = String c pre' ∧
                token_after (Some c) s' pre' w post).
Proof.
  intros Htok. destruct pre as [|c pre].
  - left. split; [done|]. apply match_here_token. eauto.
  - right. pose proof Htok as (Heq & _). rewrite app_cons in Heq. subst s.
    exists c, (pre +:+ w +:+ post), pre.
    split; [done|]. split; [done|]. by apply token_after_cons in Htok.
Qed.

Lemma search_sound prev s w :
  search prev s = Some w →
  ∃ pre post, token_after prev s pre w post ∧
    ∀ pre' w' post', token_after prev s pre' w' post' →
                     (String.length pre ≤ String.length pre')%nat.
Proof.
  revert prev. induction s as [|c s IH]; intros prev; simpl.
  - destruct (match_here prev "") as [m|] eqn:E; [|done].
    intros ?; simplify_eq. apply match_here_token in E as [post Htok].
    exists "", post. split; [done|]. simpl. lia.
  - destruct (match_here prev (String c s)) as [m|] eqn:E.
    + intros ?; simplify_eq. apply match_here_token in E as [post Htok].
      exists "", post. split; [done|]. simpl. lia.
    + intros (pre & post & Htok & Hmin)%IH.
      exists (String c pre), post. split; [by apply token_after_cons|].
      intros pre' w' post' [[_ Hm]|(c' & s' & pre'' & ? & -> & Htok')]%token_after_inv.
      * congruence.
      * simplify_eq. simpl. apply Hmin in Htok'. lia.
Qed.

Lemma search_none prev s :
  search prev s = None → ∀ pre w post, ¬ token_after prev s pre w post.
Proof.
  revert prev. induction s as [|c s IH]; intros prev; simpl.
  - destruct (match_here prev "") eqn:E; [done|]. intros _ pre w post.
    intros [[_ Hm]|(c' & s' & pre'' & ? & _)]%token_after_inv; congruence.
  - destruct (match_here prev (String c s)) eqn:E; [done|].
    intros Hs pre w post.
    intros [[_ Hm]|(c' & s' & pre'' & ? & -> & Htok')]%token_after_inv; [congruence|].
    simplify_eq. by eapply IH.
Qed.

(** Tokens that start at the same place are the same token. *)
Lemma token_after_unique prev s pre w post w' post' :
  token_after prev s pre w post → token_after prev s pre w' post' → w = w'.
Proof.
  revert prev s. induction pre as [|c pre IH]; intros prev s H1 H2.
  - assert (match_here prev s = Some w) by (apply match_here_token; eauto).
    assert (match_here prev s = Some w') by (apply match_here_token; eauto).
    congruence.
  - pose proof H1 as (Heq & _). rewrite app_cons in Heq. subst s.
    apply token_after_cons in H1, H2. eauto.
Qed.

Lemma token_after_pre_unique prev s pre w post pre' w' post' :
  token_after prev s pre w post → token_after prev s pre' w' post' →
  String.length pre = String.length pre' → pre = pre'.
Proof.
  intros (-> & _) (Heq & _). revert pre' Heq.
  induction pre as [|c pre IH]; intros [|c' pre'] Heq Hlen; try done.
  rewrite !app_cons in Heq. simpl in Hlen. simplify_eq. f_equal. eauto.
Qed.

Lemma upper_not_dash w :
  all_chars is_upper w = true → (1 ≤ String.length w)%nat → w ≠ "-".
Proof. intros Hup Hlen ->. by vm_compute in Hup. Qed.

(** C5. The ticker is the text [w] of the leftmost place where the title
    reads [pre ++ w ++ post] with [w] one to five uppercase letters, no word
    character (letter, digit or underscore) just before [w], and [post]
    starting with optional white space and a dollar sign; it is the sentinel
    "-" exactly when the title has no such place. The ticker is the "ticker"
    field of the payload handed to the message bus. *)
Theorem ticker_leftmost_whole_word (a : AlertDetails) :
  (∀ w, (ticker (title a) = w ∧ w ≠ "-") ↔
        ∃ pre post, ticker_token (title a) pre w post ∧
          ∀ pre' w' post', ticker_token (title a) pre' w' post' →
                           (String.length pre ≤ String.length pre')%nat) ∧
  (ticker (title a) = "-" ↔ ∀ pre w post, ¬ ticker_token (title a) pre w post) ∧
  payload_of a !! "ticker" = Some (ticker (title a)) ∧
  ticker "Buy AAPL $150" = "AAPL" ∧
  ticker "Update on MSFT" = "-".
Proof.
  assert (Hty : payload_of a !! "ticker" = Some (ticker (title a))) by done.
  split_and!; [| |exact Hty|reflexivity..]; clear Hty;
    unfold ticker, ticker_match, ticker_token;
    destruct (search None (title a)) as [m|] eqn:E.
  - apply search_sound in E as (pre & post & Htok & Hmin).
    intros w. split.
    + intros [-> _]. eauto.
    + intros (pre' & post' & Htok' & Hmin').
      assert (pre = pre').
      { eapply token_after_pre_unique; [done..|].
        apply Nat.le_antisymm; eauto. }
      subst pre'. split; [by eapply token_after_unique|].
      destruct Htok' as (_ & ? & [? _] & _). by apply upper_not_dash.
  - intros w. split; [by intros [<- ?]|].
    intros (pre & post & Htok & _). by eapply search_none in Htok.
  - apply search_sound in E as (pre & post & Htok & _). split.
    + intros ->. destruct Htok as (_ & Hup & _). by vm_compute in Hup.
    + intros Hno. by apply Hno in Htok.
  - split; [|done]. intros _. by apply search_none.
Qed.

(** C5, as the specification words it, fails: in "xAAPL $1" the letters
    "AAPL" are a run of four uppercase letters followed by a space and a
    dollar sign, and the only such run, yet the ticker is the sentinel,
    because the letter before the run leaves no word boundary. *)
Lemma ticker_run_inside_word :
  spec_token "xAAPL $1" "x" "AAPL" " $1" ∧ ticker "xAAPL $1" = "-".
Proof.
  split; [|reflexivity].
  unfold spec_token. split_and!; try reflexivity; simpl; try lia.
  exists " ", "1". by split.
Qed.

(** ** C7: the phase of an instant *)

(** C7. The phase is a function of the instant and the day's schedule with
    exactly three values: PRE_OPEN_LOGIN on [pre_market_login_time,
    market_open_time), OPEN on [market_open_time, market_close_time], CLOSED
    everywhere else; the three cases exclude one another. The loop takes the
    branch of the phase whenever [first_time_ever] is cleared. *)
Theorem current_phase_intervals (i : Input) :
  let now := current_time_edt i in
  (current_phase i = PRE_OPEN_LOGIN ↔
     pre_market_login_time i ≤ now < market_open_time i) ∧
  (current_phase i = OPEN ↔
     market_open_time i ≤ now ≤ market_close_time i) ∧
  (current_phase i = CLOSED ↔
     ¬ (pre_market_login_time i ≤ now < market_open_time i) ∧
     ¬ (market_open_time i ≤ now ≤ market_close_time i)) ∧
  ¬ (pre_market_login_time i ≤ now < market_open_time i ∧
     market_open_time i ≤ now ≤ market_close_time i) ∧
  branch false i = current_phase i.
Proof.
  intros now. unfold current_phase, branch, in_pre_open, in_open. fold now.
  rewrite orb_false_r.
  destruct (Z.leb_spec (pre_market_login_time i) now),
           (Z.ltb_spec now (market_open_time i)),
           (Z.leb_spec (market_open_time i) now),
           (Z.leb_spec now (market_close_time i)); simpl;
    split_and!; (done || lia || (split; (done || lia))).
Qed.

(** ** C8: the login retry loop and the session list *)

(** With the fuel it is given in [login], the loop stops because its own
    test fails, not because the fuel ran out. *)
Lemma login_loop_exits st email password fuel retry_count :
  (5 ≤ fuel + retry_count)%nat →
  let '(n, _) := login_loop st email password fuel retry_count in
  st n && (n <? 5)%nat = false.
Proof.
  revert retry_count. induction fuel as [|fuel IH]; intros rc Hle; simpl.
  - apply andb_false_iff. right. apply Nat.ltb_ge. lia.
  - destruct (st rc && (rc <? 5)%nat) eqn:E; [|done].
    specialize (IH (S rc)).
    destruct (login_loop st email password fuel (S rc)) as [n ev].
    apply IH. lia.
Qed.

(** The form is submitted once per round, the count never passes five, and
    the scroll budget before submission [k] is [10 + 5 k] seconds. *)
Lemma login_loop_calls st email password fuel retry_count :
  let '(n, ev) := login_loop st email password fuel retry_count in
  (retry_count ≤ n ≤ max retry_count 5)%nat ∧
  submit_calls ev = replicate (n - retry_count) email ∧
  scroll_calls ev = (λ k, 10 + k * 5)%nat <$> seq retry_count (n - retry_count).
Proof.
  revert retry_count. induction fuel as [|fuel IH]; intros rc; simpl.
  - rewrite Nat.sub_diag. split_and!; [lia..|done|done].
  - destruct (st rc && (rc <? 5)%nat) eqn:E.
    + apply andb_true_iff in E as [_ Hlt%Nat.ltb_lt].
      specialize (IH (S rc)).
      destruct (login_loop st email password fuel (S rc)) as [n ev].
      destruct IH as ([Hlo Hhi] & Hsub & Hscr).
      replace (n - rc)%nat with (S (n - S rc)) by lia.
      unfold submit_calls, scroll_calls in *.
      split_and!; [lia..| |]; destruct (0 <? rc)%nat; csimpl; by rewrite ?Hsub, ?Hscr.
    + rewrite Nat.sub_diag. split_and!; [lia..|done|done].
Qed.

Lemma login_loop_no_error st email password fuel retry_count t :
  EvLog ERROR t ∉ (login_loop st email password fuel retry_count).2.
Proof.
  revert retry_count. induction fuel as [|fuel IH]; intros rc; simpl.
  - apply not_elem_of_nil.
  - destruct (st rc && (rc <? 5)%nat); [|apply not_elem_of_nil].
    specialize (IH (S rc)).
    destruct (login_loop st email password fuel (S rc)) as [n ev]. simpl in *.
    destruct (0 <? rc)%nat; set_solver.
Qed.

(** [login] submits the form at most five times, with a growing scroll
    budget, and answers [False] exactly when the browser is still on the
    sign-in page after the fifth submission. *)
Lemma login_budget st email password :
  let '(ok, n, ev) := login st email password in
  (n ≤ 5)%nat ∧
  submit_calls ev = replicate n email ∧
  scroll_calls ev = (λ k, 10 + k * 5)%nat <$> seq 0 n ∧
  (ok = false ↔ n = 5%nat ∧ st 5%nat = true) ∧
  (ok = false ↔
   EvLog ERROR ("Login failed after 5 attempts for " +:+ email +:+ ". Aborting.") ∈ ev).
Proof.
  unfold login.
  pose proof (login_loop_calls st email password 5 0) as Hc.
  pose proof (login_loop_exits st email password 5 0) as He.
  pose proof (login_loop_no_error st email password 5 0) as Hno.
  destruct (login_loop st email password 5 0) as [n ev].
  destruct Hc as ([_ Hn] & Hsub & Hscr). rewrite Nat.sub_0_r in Hsub, Hscr.
  specialize (He ltac:(lia)). simpl in Hn, Hno.
  destruct (st n) eqn:Hst.
  - simpl in He. apply Nat.ltb_ge in He. assert (n = 5%nat) as -> by lia.
    unfold submit_calls, scroll_calls in *. rewrite !omap_app, Hsub, Hscr.
    csimpl.
    split_and!; [done..| |]; (split; [intros _|done]); [done|].
    apply elem_of_app. right. apply list_elem_of_singleton. done.
  - split_and!; [done..| |]; (split; [done|]).
    + intros [-> ?]. congruence.
    + intros Hin. by apply Hno in Hin.
Qed.

(** The pool gets one session per configured account, in order, whatever
    [login] answered. *)
Lemma login_accounts_sessions st index accounts :
  let '(ss, _) := login_accounts st index accounts in
  sess_email <$> ss = fst <$> accounts ∧
  sess_authenticated <$> ss =
    (λ acc, (login (st acc.1 acc.2) acc.1 acc.2).1.1) <$> accounts.
Proof.
  revert index. induction accounts as [|[email password] accounts IH]; intros index.
  - done.
  - simpl. destruct (login (st email password) email password) as [[ok n] ev].
    specialize (IH (S index)).
    destruct (login_accounts st (S index) accounts) as [ss ev'].
    destruct IH as [IH1 IH2]. csimpl. by rewrite IH1, IH2.
Qed.

Lemma fetch_calls_app ev1 ev2 :
  fetch_calls (ev1 ++ ev2) = fetch_calls ev1 ++ fetch_calls ev2.
Proof. apply omap_app. Qed.

(** Logging in never polls the feed. *)
Lemma login_loop_no_fetch st email password fuel retry_count :
  fetch_calls (login_loop st email password fuel retry_count).2 = [].
Proof.
  revert retry_count. induction fuel as [|fuel IH]; intros rc; simpl; [done|].
  destruct (st rc && (rc <? 5)%nat); [|done].
  specialize (IH (S rc)).
  destruct (login_loop st email password fuel (S rc)) as [n ev].
  cbn [snd] in *. destruct (0 <? rc)%nat; exact IH.
Qed.

Lemma login_no_fetch st email password :
  fetch_calls (login st email password).2 = [].
Proof.
  unfold login.
  pose proof (login_loop_no_fetch st email password 5 0) as Hl.
  destruct (login_loop st email password 5 0) as [n ev]. cbn [snd] in Hl.
  destruct (st n); cbn [snd]; by rewrite ?fetch_calls_app, Hl.
Qed.

Lemma login_accounts_no_fetch st index accounts :
  fetch_calls (login_accounts st index accounts).2 = [].
Proof.
  revert index. induction accounts as [|[email password] accounts IH]; intros index.
  - done.
  - cbn [login_accounts].
    pose proof (login_no_fetch (st email password) email password) as Hl.
    destruct (login (st email password) email password) as [[ok n] ev].
    specialize (IH (S index)).
    destruct (login_accounts st (S index) accounts) as [ss ev'].
    cbn [snd] in *. by rewrite !fetch_calls_app, Hl, IH.
Qed.

(** C8. The configured accounts "a@x" and "b@x", the site rejecting "a@x":
    [login] gives up on "a@x" after five submissions with growing scroll
    budgets and answers [False], "b@x" is still processed, and the session
    list nevertheless holds a session for "a@x", built from the cookies of a
    browser that never left the sign-in page. *)
Theorem failed_login_keeps_session :
  let '(ok, n, ev) := login (site_rejecting_a "a@x" "pw1") "a@x" "pw1" in
  let '(s, _) := step two_accounts (at_time 0 150 (λ _, quiet)) initial_state in
  ok = false ∧ n = 5%nat ∧
  scroll_calls ev = [10; 15; 20; 25; 30]%nat ∧
  sessions s = [ {| sess_email := "a@x"; sess_authenticated := false |};
                 {| sess_email := "b@x"; sess_authenticated := true |} ].
Proof. vm_compute. done. Qed.

(** ** C9: the cold start *)

Lemma step_first_time_ever accounts i s :
  first_time_ever s = false → first_time_ever (step accounts i s).1 = false.
Proof.
  intros Hf. unfold step. destruct (branch (first_time_ever s) i).
  - destruct (logged_in s); [done|]. by destruct (login_accounts (site i) 0 accounts).
  - by destruct (poll_sessions (world i) 0 (sessions s) (last_alert_details s)) as [[??]?].
  - done.
Qed.

Lemma run_first_time_ever accounts inputs s :
  first_time_ever s = false → first_time_ever (run accounts inputs s).1 = false.
Proof.
  revert s. induction inputs as [|i inputs IH]; intros s Hf; [done|].
  simpl. pose proof (step_first_time_ever accounts i s Hf) as Hs.
  destruct (step accounts i s) as [s' ev].
  specialize (IH s' Hs). by destruct (run accounts inputs s').
Qed.

(** Only the OPEN branch polls. *)
Lemma step_fetch_only_open accounts i s :
  fetch_calls (step accounts i s).2 ≠ [] → branch (first_time_ever s) i = OPEN.
Proof.
  unfold step. destruct (branch (first_time_ever s) i); [|done|done].
  destruct (logged_in s); [done|].
  pose proof (login_accounts_no_fetch (site i) 0 accounts) as Hl.
  destruct (login_accounts (site i) 0 accounts) as [ss ev]. cbn [snd] in *.
  rewrite !fetch_calls_app, Hl. done.
Qed.

(** C9. At the first iteration ([first_time_ever] set, nobody logged in)
    the login branch runs whatever the instant: every account is logged in
    and the flag is cleared. That iteration polls nothing. The flag stays
    cleared for the rest of the run, so every later iteration takes the
    branch of the phase of its instant, and polls only when that phase is
    OPEN. *)
Theorem cold_start_forces_login_once accounts i s :
  first_time_ever s = true → logged_in s = false →
  let '(s1, ev1) := step accounts i s in
  sessions s1 = (login_accounts (site i) 0 accounts).1 ∧
  logged_in s1 = true ∧
  first_time_ever s1 = false ∧
  fetch_calls ev1 = [] ∧
  ∀ inputs i',
    let s2 := (run accounts inputs s1).1 in
    first_time_ever s2 = false ∧
    branch (first_time_ever s2) i' = current_phase i' ∧
    (fetch_calls (step accounts i' s2).2 ≠ [] → current_phase i' = OPEN).
Proof.
  intros Hf Hl.
  destruct (step accounts i s) as [s1 ev1] eqn:E.
  unfold step, branch in E. rewrite Hf, Hl, orb_true_r in E.
  pose proof (login_accounts_no_fetch (site i) 0 accounts) as Hno.
  destruct (login_accounts (site i) 0 accounts) as [ss ev].
  cbn [fst snd] in *. simplify_eq.
  split_and!; [done..| |].
  - by rewrite !fetch_calls_app, Hno.
  - intros inputs i'.
    match goal with |- context [run accounts inputs ?s1] =>
      pose proof (run_first_time_ever accounts inputs s1 eq_refl) as Hs2 end.
    split_and!; [done|by rewrite Hs2|].
    intros Hfetch%step_fetch_only_open. by rewrite Hs2 in Hfetch.
Qed.

(** The theorem at a start after the close. *)
Lemma cold_start_forces_login_once_witness :
  let '(s1, ev1) :=
    step two_accounts (at_time 0 400 (feed "Buy AAPL $150" Returns Returns))
         initial_state in
  sessions s1 =
    (login_accounts site_rejecting_a 0 two_accounts).1 ∧
  logged_in s1 = true ∧
  first_time_ever s1 = false ∧
  fetch_calls ev1 = [] ∧
  ∀ inputs i',
    let s2 := (run two_accounts inputs s1).1 in
    first_time_ever s2 = false ∧
    branch (first_time_ever s2) i' = current_phase i' ∧
    (fetch_calls (step two_accounts i' s2).2 ≠ [] → current_phase i' = OPEN).
Proof.
  exact (cold_start_forces_login_once two_accounts
           (at_time 0 400 (feed "Buy AAPL $150" Returns Returns))
           initial_state eq_refl eq_refl).
Defined.

(** C9, as the specification words it, fails: started after the close with
    an alert on the feed, the loop logs the accounts in at its first
    iteration, takes the CLOSED branch at the second, and has polled nothing
    and sent nothing. *)
Lemma cold_start_after_close_polls_nothing :
  let late k := at_time 0 k (feed "Buy AAPL $150" Returns Returns) in
  let '(s, ev) := run two_accounts [late 400; late 401] initial_state in
  current_phase (late 400) = CLOSED ∧
  submit_calls ev = ["a@x"; "a@x"; "a@x"; "a@x"; "a@x"; "b@x"] ∧
  fetch_calls ev = [] ∧
  telegram_calls ev = [] ∧
  ws_calls ev = [] ∧
  logged_in s = false.
Proof. vm_compute. done. Qed.

(** ** The monitoring pass: C1, C3, C4 *)

Lemma is_new_true a (last : gmap string string) :
  is_new a last = true ↔ last !! "title" ≠ Some (title a).
Proof. unfold is_new. by rewrite bool_decide_eq_true. Qed.

Lemma is_new_false a (last : gmap string string) :
  is_new a last = false ↔ last !! "title" = Some (title a).
Proof.
  unfold is_new. rewrite bool_decide_eq_false.
  destruct (decide (last !! "title" = Some (title a))); naive_solver.
Qed.

Lemma seen_mark_title a : seen_mark a !! "title" = Some (title a).
Proof. done. Qed.

(** Every poll of a session fetches the feed page once. *)
Lemma poll_session_fetch w k session last :
  fetch_calls (poll_session w k session last).2 = [k].
Proof.
  unfold poll_session.
  destruct (fetched w) as [|a|e]; [done| |done].
  destruct (is_new a last); [|done].
  by destruct (telegram_result w), (ws_result w).
Qed.

Ltac poll_cases a last tg wr :=
  unfold poll_session; cbn [fetched telegram_result ws_result];
  let E := fresh "Enew" in
  destruct (is_new a last) eqn:E;
  [apply is_new_true in E | apply is_new_false in E];
  destruct tg, wr; cbn [fst snd].

(** C1. For an extracted alert, the notification sender is called exactly
    when the title differs from the stored title (or nothing is stored);
    the message bus sender is called too exactly when, in addition, the
    notification call returned; nothing is sent otherwise. When the two
    calls of a dispatch return, an alert with the same title polled next is
    not dispatched, and one with another title is. *)
Theorem dispatch_iff_title_differs (a : AlertDetails) (tg wr : CallResult)
    (k : nat) (session : Session) (last : gmap string string) :
  let w := {| fetched := FetchAlert a; telegram_result := tg; ws_result := wr |} in
  let '(c, last', ev) := poll_session w k session last in
  (telegram_calls ev = [message_of a] ↔ last !! "title" ≠ Some (title a)) ∧
  (ws_calls ev = [payload_of a] ↔ last !! "title" ≠ Some (title a) ∧ tg = Returns) ∧
  (telegram_calls ev = [] ∧ ws_calls ev = [] ↔ last !! "title" = Some (title a)) ∧
  (last = ∅ → telegram_calls ev = [message_of a]) ∧
  (last !! "title" ≠ Some (title a) ∧ tg = Returns ∧ wr = Returns →
   ∀ a2 tg2 wr2 k2 session2,
     let w2 := {| fetched := FetchAlert a2; telegram_result := tg2; ws_result := wr2 |} in
     let ev2 := (poll_session w2 k2 session2 last').2 in
     (title a2 = title a → telegram_calls ev2 = [] ∧ ws_calls ev2 = []) ∧
     (title a2 ≠ title a →
      telegram_calls ev2 = [message_of a2] ∧
      (tg2 = Returns → ws_calls ev2 = [payload_of a2]))).
Proof.
  intros w. subst w.
  destruct (poll_session _ k session last) as [[c last'] ev] eqn:E.
  revert E. poll_cases a last tg wr; intros ?; simplify_eq;
    (split_and!;
     [ split; (done || (intros; by rewrite ?lookup_empty in * ))
     | split; (done || naive_solver)
     | split; (done || naive_solver)
     | intros ->; try done; by rewrite lookup_empty in *
     | ]).
  all: try (intros (? & ? & ?); done).
  intros _ a2 tg2 wr2 k2 session2. cbn zeta. split.
  - intros Heq. unfold poll_session. cbn [fetched].
    assert (is_new a2 (seen_mark a) = false) as ->.
    { apply is_new_false. by rewrite seen_mark_title, Heq. }
    done.
  - intros Hne. unfold poll_session. cbn [fetched telegram_result ws_result].
    assert (is_new a2 (seen_mark a) = true) as ->.
    { apply is_new_true. rewrite seen_mark_title. congruence. }
    destruct tg2, wr2; cbn [snd]; split; done.
Qed.

(** C1, as the specification words it, fails when a sender raises. With
    the notification sender raising, the title differs from the stored one
    (nothing is stored) and yet the message bus sender is not called. With
    the message bus sender raising, the same title polled twice in a row
    has both senders called the second time too. *)
Lemma same_title_dispatched_twice :
  let a := alert_titled "Buy AAPL $150" in
  let session := {| sess_email := "b@x"; sess_authenticated := true |} in
  let down := feed "Buy AAPL $150" (Raises "telegram down") Returns 0%nat in
  let flaky := feed "Buy AAPL $150" Returns (Raises "ws closed") 0%nat in
  let '(_, _, ev0) := poll_session down 0 session ∅ in
  let '(_, last1, ev1) := poll_session flaky 0 session ∅ in
  let '(_, _, ev2) := poll_session flaky 0 session last1 in
  ((∅ : gmap string string) !! "title" ≠ Some (title a) ∧ ws_calls ev0 = []) ∧
  (telegram_calls ev1 = [message_of a] ∧ ws_calls ev1 = [payload_of a]) ∧
  (telegram_calls ev2 = [message_of a] ∧ ws_calls ev2 = [payload_of a]).
Proof. vm_compute. done. Qed.

(** C3. For a new alert the notification sender is always called. The
    stored alert becomes this alert when both senders return; when either
    raises, the pass ends with that exception, the stored alert is left as
    it was, and the next poll of the same alert dispatches it again. *)
Theorem seen_mark_needs_both_senders (a : AlertDetails) (tg wr : CallResult)
    (k : nat) (session : Session) (last : gmap string string) :
  last !! "title" ≠ Some (title a) →
  let w := {| fetched := FetchAlert a; telegram_result := tg; ws_result := wr |} in
  let '(c, last', ev) := poll_session w k session last in
  telegram_calls ev = [message_of a] ∧
  (tg = Returns ∧ wr = Returns → c = Normal ∧ last' = seen_mark a) ∧
  (¬ (tg = Returns ∧ wr = Returns) →
   (∃ e, c = Raised e) ∧ last' = last ∧
   ∀ tg2 wr2 k2 session2,
     let w2 := {| fetched := FetchAlert a; telegram_result := tg2; ws_result := wr2 |} in
     telegram_calls (poll_session w2 k2 session2 last').2 = [message_of a]).
Proof.
  intros Hnew w. subst w.
  assert (Hagain : ∀ tg2 wr2 k2 session2,
    telegram_calls (poll_session
      {| fetched := FetchAlert a; telegram_result := tg2; ws_result := wr2 |}
      k2 session2 last).2 = [message_of a]).
  { intros tg2 wr2 k2 session2. unfold poll_session. cbn [fetched telegram_result ws_result].
    apply is_new_true in Hnew as ->. by destruct tg2, wr2. }
  destruct (poll_session _ k session last) as [[c last'] ev] eqn:E.
  revert E. poll_cases a last tg wr; intros ?; simplify_eq.
  - split_and!; [done|done|]. intros []. done.
  - split_and!; [done|by intros [_ ?]|]. intros _. split_and!; eauto.
  - split_and!; [done|by intros [? _]|]. intros _. split_and!; eauto.
  - split_and!; [done|by intros [? _]|]. intros _. split_and!; eauto.
Qed.

(** The theorem on a new alert whose message bus call raises. *)
Lemma seen_mark_needs_both_senders_witness :
  let a := alert_titled "Buy AAPL $150" in
  let session := {| sess_email := "b@x"; sess_authenticated := true |} in
  let w := {| fetched := FetchAlert a; telegram_result := Returns;
              ws_result := Raises "ws closed" |} in
  let '(c, last', ev) := poll_session w 0 session ∅ in
  telegram_calls ev = [message_of a] ∧
  (Returns = Returns ∧ Raises "ws closed" = Returns → c = Normal ∧ last' = seen_mark a) ∧
  (¬ (Returns = Returns ∧ Raises "ws closed" = Returns) →
   (∃ e, c = Raised e) ∧ last' = ∅ ∧
   ∀ tg2 wr2 k2 session2,
     let w2 := {| fetched := FetchAlert a; telegram_result := tg2; ws_result := wr2 |} in
     telegram_calls (poll_session w2 k2 session2 last').2 = [message_of a]).
Proof.
  exact (seen_mark_needs_both_senders (alert_titled "Buy AAPL $150") Returns
           (Raises "ws closed") 0
           {| sess_email := "b@x"; sess_authenticated := true |} ∅
           ltac:(by rewrite lookup_empty)).
Defined.

(** C3, as the specification words it, fails: the notification sender
    raises on a new alert, a dispatch attempt was made, and the stored alert
    is still empty; the next poll sends the same alert again. *)
Lemma sender_failure_leaves_alert_unseen :
  let a := alert_titled "Buy AAPL $150" in
  let session := {| sess_email := "b@x"; sess_authenticated := true |} in
  let down := feed "Buy AAPL $150" (Raises "telegram down") Returns 0%nat in
  let up := feed "Buy AAPL $150" Returns Returns 0%nat in
  let '(c1, last1, ev1) := poll_session down 0 session ∅ in
  let '(_, _, ev2) := poll_session up 0 session last1 in
  telegram_calls ev1 = [message_of a] ∧
  c1 = Raised "telegram down" ∧
  last1 !! "title" = None ∧
  telegram_calls ev2 = [message_of a] ∧ ws_calls ev2 = [payload_of a].
Proof. vm_compute. done. Qed.

(** C4. For a new alert the notification sender is called first, whatever
    the message bus sender will do; the message bus sender is called exactly
    when the notification call returned. A raising notification call ends
    the dispatch before the message bus call. *)
Theorem ws_called_iff_telegram_returned (a : AlertDetails) (tg wr : CallResult)
    (k : nat) (session : Session) (last : gmap string string) :
  last !! "title" ≠ Some (title a) →
  let w := {| fetched := FetchAlert a; telegram_result := tg; ws_result := wr |} in
  let '(c, _, ev) := poll_session w k session last in
  take 2 ev = [EvFetch k session; EvTelegram (message_of a)] ∧
  telegram_calls ev = [message_of a] ∧
  (ws_calls ev = [payload_of a] ↔ tg = Returns) ∧
  (∀ e, tg = Raises e → ws_calls ev = [] ∧ c = Raised e) ∧
  (tg = Returns →
   take 3 ev = [EvFetch k session; EvTelegram (message_of a); EvWs (payload_of a)]).
Proof.
  intros Hnew w. subst w.
  destruct (poll_session _ k session last) as [[c last'] ev] eqn:E.
  revert E. poll_cases a last tg wr; intros ?; simplify_eq;
    split_and!; try done; intros; by simplify_eq.
Qed.

(** The theorem on a new alert whose message bus call raises. *)
Lemma ws_called_iff_telegram_returned_witness :
  let a := alert_titled "Buy AAPL $150" in
  let session := {| sess_email := "b@x"; sess_authenticated := true |} in
  let w := {| fetched := FetchAlert a; telegram_result := Returns;
              ws_result := Raises "ws closed" |} in
  let '(c, _, ev) := poll_session w 0 session ∅ in
  take 2 ev = [EvFetch 0 session; EvTelegram (message_of a)] ∧
  telegram_calls ev = [message_of a] ∧
  (ws_calls ev = [payload_of a] ↔ Returns = Returns) ∧
  (∀ e, Returns = Raises e → ws_calls ev = [] ∧ c = Raised e) ∧
  (Returns = Returns →
   take 3 ev = [EvFetch 0 session; EvTelegram (message_of a); EvWs (payload_of a)]).
Proof.
  exact (ws_called_iff_telegram_returned (alert_titled "Buy AAPL $150") Returns
           (Raises "ws closed") 0
           {| sess_email := "b@x"; sess_authenticated := true |} ∅
           ltac:(by rewrite lookup_empty)).
Defined.

(** C4, as the specification words it, fails: the notification sender
    raises and the message bus sender is not called in that dispatch. *)
Lemma telegram_failure_skips_ws :
  let a := alert_titled "Buy AAPL $150" in
  let session := {| sess_email := "b@x"; sess_authenticated := true |} in
  let down := feed "Buy AAPL $150" (Raises "telegram down") Returns 0%nat in
  let '(c, _, ev) := poll_session down 0 session ∅ in
  ev = [EvFetch 0 session; EvTelegram (message_of a)] ∧
  ws_calls ev = [] ∧
  c = Raised "telegram down".
Proof. vm_compute. done. Qed.

(** ** C10: an exception ends the pass *)

(** A pass that ends normally polled every session once, in order. *)
Lemma poll_sessions_normal_fetch w index ss last last' ev :
  poll_sessions w index ss last = (Normal, last', ev) →
  fetch_calls ev = seq index (length ss).
Proof.
  revert index last last' ev.
  induction ss as [|session ss IH]; intros index last last' ev H; simpl in H.
  - by simplify_eq.
  - pose proof (poll_session_fetch (w index) index session last) as Hf.
    destruct (poll_session (w index) index session last) as [[[|e] l1] ev1]; [|done].
    destruct (poll_sessions w (S index) ss l1) as [[c l2] ev2] eqn:E.
    simplify_eq. apply IH in E. cbn [snd] in Hf.
    by rewrite fetch_calls_app, Hf, E.
Qed.

(** When the poll of one session raises, the pass ends there: its outcome
    does not depend on the sessions registered after it. *)
Lemma poll_sessions_raise w index before session after last last1 ev1 e last2 ev2 :
  poll_sessions w index before last = (Normal, last1, ev1) →
  poll_session (w (index + length before)%nat) (index + length before) session last1
    = (Raised e, last2, ev2) →
  poll_sessions w index (before ++ session :: after) last = (Raised e, last2, ev1 ++ ev2).
Proof.
  revert index last last1 ev1.
  induction before as [|s0 before IH]; intros index last last1 ev1 Hb Hs; simpl in *.
  - simplify_eq. rewrite Nat.add_0_r in Hs. by rewrite Hs.
  - destruct (poll_session (w index) index s0 last) as [[[|e0] l0] ev0]; [|done].
    destruct (poll_sessions w (S index) before l0) as [[c l] ev] eqn:E.
    simplify_eq.
    rewrite (IH (S index) l0 last1 ev); [by rewrite app_assoc|done|].
    by replace (S index + length before)%nat with (index + S (length before))%nat by lia.
Qed.

(** A pass over a non-empty session list starts with the first session. *)
Lemma poll_sessions_starts_at w index session ss last :
  head (fetch_calls (poll_sessions w index (session :: ss) last).2) = Some index.
Proof.
  simpl. pose proof (poll_session_fetch (w index) index session last) as Hf.
  destruct (poll_session (w index) index session last) as [[[|e] l1] ev1];
    cbn [snd] in *.
  - destruct (poll_sessions w (S index) ss l1) as [[c l2] ev2]. cbn [snd].
    by rewrite fetch_calls_app, Hf.
  - by rewrite Hf.
Qed.

(** C10. In an OPEN iteration over the sessions [before ++ session :: after]
    where the sessions of [before] are polled normally and the poll of
    [session] raises: the iteration makes the calls of [before], the calls
    of [session] up to the exception, the error log and one pause; the
    sessions fetched are those at positions [0 .. length before], none of
    [after]; the stored alert is what the poll of [session] left; the
    session list is unchanged; and the next OPEN iteration starts again at
    the first session. *)
Theorem exception_ends_pass accounts i s before session after last1 ev1 e last2 ev2 :
  branch (first_time_ever s) i = OPEN →
  sessions s = before ++ session :: after →
  poll_sessions (world i) 0 before (last_alert_details s) = (Normal, last1, ev1) →
  poll_session (world i (length before)) (length before) session last1
    = (Raised e, last2, ev2) →
  let '(s', ev) := step accounts i s in
  ev = (if market_is_open s then []
        else [EvLog INFO "Market is open, starting monitoring..."])
       ++ (ev1 ++ ev2) ++ [EvLog ERROR ("Error: " +:+ e); EvSleep 700] ∧
  fetch_calls ev = seq 0 (S (length before)) ∧
  last_alert_details s' = last2 ∧
  sessions s' = sessions s ∧
  ∀ i', branch (first_time_ever s') i' = OPEN →
        head (fetch_calls (step accounts i' s').2) = Some 0%nat.
Proof.
  intros Hbr Hss Hb Hs.
  pose proof (poll_sessions_raise (world i) 0 before session after _ _ _ _ _ _ Hb Hs) as Hp.
  pose proof (poll_sessions_normal_fetch _ _ _ _ _ _ Hb) as Hf1.
  pose proof (poll_session_fetch (world i (length before)) (length before) session last1) as Hf2.
  rewrite Hs in Hf2. cbn [snd] in Hf2.
  destruct (step accounts i s) as [s' ev] eqn:E.
  unfold step in E. rewrite Hbr, Hss, Hp in E. simplify_eq. cbn [sessions last_alert_details].
  split_and!; [done| |done|done|].
  - rewrite !fetch_calls_app, Hf1, Hf2.
    replace (fetch_calls (if market_is_open s then [] else _)) with (@nil nat)
      by by destruct (market_is_open s).
    replace (S (length before)) with (length before + 1)%nat by lia.
    by rewrite seq_app, app_nil_r.
  - intros i' Hbr'. unfold step. rewrite Hbr'.
    cbn [sessions last_alert_details market_is_open].
    assert (∃ s0 rest, before ++ session :: after = s0 :: rest) as (s0 & rest & ->)
      by (destruct before; simpl; eauto).
    pose proof (poll_sessions_starts_at (world i') 0 s0 rest last2) as Hh.
    destruct (poll_sessions (world i') 0 (s0 :: rest) last2) as [[c l] ev'].
    cbn [snd] in *. rewrite !fetch_calls_app.
    by destruct (fetch_calls ev').
Qed.

(** The theorem on three sessions where the fetch of the second raises: the
    third, whose alert is new, is neither fetched nor dispatched. *)
Lemma exception_ends_pass_witness :
  let i := at_time 0 250 second_fetch_raises in
  let '(s', ev) := step two_accounts i monitoring_three in
  fetch_calls ev = [0; 1]%nat ∧
  telegram_calls ev = [message_of (alert_titled "Buy AAPL $150")] ∧
  last_alert_details s' = seen_mark (alert_titled "Buy AAPL $150") ∧
  sessions s' = three_sessions ∧
  ∀ i', branch (first_time_ever s') i' = OPEN →
        head (fetch_calls (step two_accounts i' s').2) = Some 0%nat.
Proof.
  pose proof (exception_ends_pass two_accounts (at_time 0 250 second_fetch_raises)
    monitoring_three
    [ {| sess_email := "a@x"; sess_authenticated := true |} ]
    {| sess_email := "b@x"; sess_authenticated := true |}
    [ {| sess_email := "c@x"; sess_authenticated := true |} ]
    (seen_mark (alert_titled "Buy AAPL $150"))
    (poll_sessions second_fetch_raises 0
       [ {| sess_email := "a@x"; sess_authenticated := true |} ] ∅).2
    "connection reset"
    (seen_mark (alert_titled "Buy AAPL $150"))
    [EvFetch 1 {| sess_email := "b@x"; sess_authenticated := true |}]
    eq_refl eq_refl eq_refl eq_refl) as H.
  cbn zeta.
  destruct (step two_accounts (at_time 0 250 second_fetch_raises) monitoring_three)
    as [s' ev].
  destruct H as (Hev & Hf & Hlast & Hss & Hnext).
  split_and!; [exact Hf| |exact Hlast|exact Hss|exact Hnext].
  rewrite Hev. reflexivity.
Defined.

(** ** C2: the stored alert across days *)

Lemma poll_sessions_keep_title w index ss (last : gmap string string) :
  is_Some (last !! "title") →
  is_Some ((poll_sessions w index ss last).1.2 !! "title").
Proof.
  revert index last. induction ss as [|session ss IH]; intros index last Hl; [done|].
  simpl.
  assert (Hone : is_Some ((poll_session (w index) index session last).1.2 !! "title")).
  { unfold poll_session. destruct (fetched (w index)) as [|a|e]; [done| |done].
    destruct (is_new a last); [|done].
    by destruct (telegram_result (w index)), (ws_result (w index)). }
  destruct (poll_session (w index) index session last) as [[[|e] l1] ev1];
    cbn [fst snd] in *; [|done].
  specialize (IH (S index) l1 Hone).
  by destruct (poll_sessions w (S index) ss l1) as [[c l2] ev2].
Qed.

(** No branch of the loop empties the stored alert. *)
Lemma stored_title_never_cleared accounts inputs s :
  is_Some (last_alert_details s !! "title") →
  is_Some (last_alert_details (run accounts inputs s).1 !! "title").
Proof.
  revert s. induction inputs as [|i inputs IH]; intros s Hs; [done|].
  simpl.
  assert (Hstep : is_Some (last_alert_details (step accounts i s).1 !! "title")).
  { unfold step. destruct (branch (first_time_ever s) i).
    - destruct (logged_in s); [done|]. by destruct (login_accounts (site i) 0 accounts).
    - pose proof (poll_sessions_keep_title (world i) 0 (sessions s) _ Hs) as Hp.
      by destruct (poll_sessions (world i) 0 (sessions s) (last_alert_details s))
        as [[c l] ev].
    - done. }
  destruct (step accounts i s) as [s1 ev1]. cbn [fst] in Hstep.
  specialize (IH s1 Hstep). by destruct (run accounts inputs s1).
Qed.

Lemma step_keeps_last_outside_open accounts i s :
  in_open i = false →
  last_alert_details (step accounts i s).1 = last_alert_details s.
Proof.
  intros Hi. unfold step, branch. rewrite Hi.
  destruct (in_pre_open i || first_time_ever s); [|done].
  destruct (logged_in s); [done|]. by destruct (login_accounts (site i) 0 accounts).
Qed.

(** C2. Over any stretch of iterations outside the OPEN window (the CLOSED
    iterations of the night and the PRE_OPEN_LOGIN iterations of the next
    morning) the stored alert is left as it was; so the first alert polled
    afterwards is dispatched exactly when its title differs from the title
    stored the day before (or nothing was ever stored). *)
Theorem stored_alert_survives_the_night accounts inputs s :
  Forall (λ i, in_open i = false) inputs →
  let s' := (run accounts inputs s).1 in
  last_alert_details s' = last_alert_details s ∧
  ∀ a tg wr k session,
    let w := {| fetched := FetchAlert a; telegram_result := tg; ws_result := wr |} in
    let ev := (poll_session w k session (last_alert_details s')).2 in
    (telegram_calls ev = [message_of a] ↔
       last_alert_details s !! "title" ≠ Some (title a)) ∧
    (telegram_calls ev = [] ∧ ws_calls ev = [] ↔
       last_alert_details s !! "title" = Some (title a)).
Proof.
  intros Hall.
  assert (Hkeep : last_alert_details (run accounts inputs s).1 = last_alert_details s).
  { revert s. induction Hall as [|i inputs Hi _ IH]; intros s; [done|].
    simpl. pose proof (step_keeps_last_outside_open accounts i s Hi) as Hs.
    destruct (step accounts i s) as [s1 ev1]. cbn [fst] in Hs.
    specialize (IH s1). destruct (run accounts inputs s1). cbn [fst] in *. congruence. }
  cbn zeta. split; [done|]. rewrite Hkeep.
  intros a tg wr k session.
  poll_cases a (last_alert_details s) tg wr; split; split; try done; naive_solver.
Qed.

(** The theorem at the close of a day that stored "Buy AAPL $150", over the
    CLOSED iteration and the login of the next morning. *)
Lemma stored_alert_survives_the_night_witness :
  let night := [at_time 0 350 (λ _, quiet); at_time 1000 150 (λ _, quiet)] in
  let s' := (run one_account night after_dispatch).1 in
  last_alert_details s' = last_alert_details after_dispatch ∧
  ∀ a tg wr k session,
    let w := {| fetched := FetchAlert a; telegram_result := tg; ws_result := wr |} in
    let ev := (poll_session w k session (last_alert_details s')).2 in
    (telegram_calls ev = [message_of a] ↔
       last_alert_details after_dispatch !! "title" ≠ Some (title a)) ∧
    (telegram_calls ev = [] ∧ ws_calls ev = [] ↔
       last_alert_details after_dispatch !! "title" = Some (title a)).
Proof.
  exact (stored_alert_survives_the_night one_account
           [at_time 0 350 (λ _, quiet); at_time 1000 150 (λ _, quiet)]
           after_dispatch
           ltac:(repeat constructor)).
Defined.

(** C2, as the specification words it, fails: after a day on which
    "Buy AAPL $150" was dispatched, the close and the login of the next
    morning, the stored alert still carries that title, and the same title
    polled on the new day is not dispatched. *)
Lemma stored_alert_not_reset_for_new_day :
  let '(s, ev) := run one_account two_days initial_state in
  let next_open := at_time 1000 250 (feed "Buy AAPL $150" Returns Returns) in
  let '(_, ev') := step one_account next_open s in
  current_phase (at_time 0 350 (λ _, quiet)) = CLOSED ∧
  current_phase (at_time 1000 150 (λ _, quiet)) = PRE_OPEN_LOGIN ∧
  submit_calls ev = ["b@x"; "b@x"] ∧
  telegram_calls ev = [message_of (alert_titled "Buy AAPL $150")] ∧
  last_alert_details s !! "title" = Some "Buy AAPL $150" ∧
  fetch_calls ev' = [0%nat] ∧
  telegram_calls ev' = [] ∧
  ws_calls ev' = [].
Proof. vm_compute. done. Qed.

(** * Further properties of the code *)

(** ** The ticker and the direction *)

Lemma all_chars_app p (s t : string) :
  all_chars p (s +:+ t) = all_chars p s && all_chars p t.
Proof.
  induction s as [|c s IH]; [done|].
  rewrite app_cons. simpl. by rewrite IH, andb_assoc.
Qed.

Lemma string_app_assoc (s t u : string) : (s +:+ t) +:+ u = s +:+ t +:+ u.
Proof. induction s as [|c s IH]; [done|]. rewrite !app_cons. by rewrite IH. Qed.

Lemma string_app_length (s t : string) :
  String.length (s +:+ t) = (String.length s + String.length t)%nat.
Proof. induction s as [|c s IH]; [done|]. rewrite app_cons. simpl. by rewrite IH. Qed.

(** X1. The ticker handed to the message bus is the sentinel or one to five
    uppercase letters taken from the title. *)
Theorem ticker_well_formed (title : string) :
  ticker title = "-" ∨
  (all_chars is_upper (ticker title) = true ∧
   (1 ≤ String.length (ticker title) ≤ 5)%nat ∧
   has_substring (ticker title) title).
Proof.
  unfold ticker, ticker_match.
  destruct (search None title) as [m|] eqn:E; [|by left].
  right. apply search_sound in E as (pre & post & (Heq & Hup & Hlen & _) & _).
  split; [done|]. split; [done|]. by exists pre, post.
Qed.

(** X2. A title without a dollar sign has no ticker. *)
Theorem ticker_needs_dollar (title : string) :
  all_chars (λ c, negb (Ascii.eqb c "$")) title = true → ticker title = "-".
Proof.
  intros Hno. unfold ticker, ticker_match.
  destruct (search None title) as [m|] eqn:E; [|done].
  apply search_sound in E as (pre & post & (Heq & _ & _ & _ & Hd) & _).
  destruct Hd as (ws & rest & -> & _). subst title.
  rewrite !all_chars_app in Hno. simpl in Hno.
  by rewrite !andb_false_r in Hno.
Qed.

Lemma ticker_needs_dollar_witness : ticker "Update on MSFT" = "-".
Proof. exact (ticker_needs_dollar "Update on MSFT" eq_refl). Defined.

Lemma lower_char_not_upper c : is_upper (lower_char c) = false.
Proof. destruct c as [[] [] [] [] [] [] [] []]; by vm_compute. Qed.

Lemma lower_char_idemp c : lower_char (lower_char c) = lower_char c.
Proof. destruct c as [[] [] [] [] [] [] [] []]; by vm_compute. Qed.

Lemma lower_idemp s : lower (lower s) = lower s.
Proof. induction s as [|c s IH]; [done|]. simpl. by rewrite lower_char_idemp, IH. Qed.

Lemma lower_app (s t : string) : lower (s +:+ t) = lower s +:+ lower t.
Proof. induction s as [|c s IH]; [done|]. rewrite app_cons. simpl. by rewrite IH. Qed.

Lemma search_without_upper prev s :
  all_chars (λ c, negb (is_upper c)) s = true → search prev s = None.
Proof.
  revert prev. induction s as [|c s IH]; intros prev Hs; simpl.
  - unfold match_here. by destruct (at_boundary prev (head_char "")).
  - simpl in Hs. apply andb_true_iff in Hs as [Hc Hs]. apply negb_true_iff in Hc.
    unfold match_here. simpl upper_run. rewrite Hc. simpl.
    rewrite (IH _ Hs). by destruct (at_boundary prev (Some c)).
Qed.

(** X3. The direction does not depend on the case of the title, the ticker
    does: a title and its lowercased form have the same direction, and a
    lowercased title never has a ticker. *)
Theorem direction_ignores_case_ticker_does_not (title : string) :
  signal_type (lower title) = signal_type title ∧
  ticker (lower title) = "-".
Proof.
  split.
  - unfold signal_type. by rewrite lower_idemp.
  - unfold ticker, ticker_match. rewrite search_without_upper; [done|].
    induction title as [|c s IH]; [done|]. simpl.
    by rewrite lower_char_not_upper, IH.
Qed.

(** X4. A title that contains a Buy title is a Buy title, whatever stands
    around it. *)
Theorem buy_survives_context (pre title post : string) :
  signal_type title = "Buy" → signal_type (pre +:+ title +:+ post) = "Buy".
Proof.
  unfold signal_type. intros H.
  destruct (contains "buy" (lower title)) eqn:E.
  - apply contains_spec in E as (a & b & E).
    assert (contains "buy" (lower (pre +:+ title +:+ post)) = true) as ->; [|done].
    apply contains_spec. rewrite !lower_app, E.
    exists (lower pre +:+ a), (b +:+ lower post).
    by rewrite !string_app_assoc.
  - by destruct (contains "sell" (lower title)).
Qed.

Lemma buy_survives_context_witness :
  signal_type ("Hedgeye: " +:+ "Buy AAPL $150" +:+ " (sell later)") = "Buy".
Proof.
  exact (buy_survives_context "Hedgeye: " "Buy AAPL $150" " (sell later)" eq_refl).
Defined.

Lemma ws_then_dollar_mono s x :
  ws_then_dollar s = true → ws_then_dollar (s +:+ x) = true.
Proof.
  induction s as [|c s IH]; [done|]. rewrite app_cons. simpl.
  rewrite !orb_true_iff, !andb_true_iff. naive_solver.
Qed.

Lemma ws_then_dollar_app s x :
  ws_then_dollar (s +:+ x) = true →
  ws_then_dollar s = true ∨ all_chars is_space s = true.
Proof.
  induction s as [|c s IH]; [by right|]. rewrite app_cons. simpl.
  rewrite !orb_true_iff, !andb_true_iff. naive_solver.
Qed.

Lemma all_chars_weaken (p q : ascii → bool) s :
  (∀ c, p c = true → q c = true) → all_chars p s = true → all_chars q s = true.
Proof.
  intros Hpq. induction s as [|c s IH]; [done|]. simpl.
  rewrite !andb_true_iff. naive_solver.
Qed.

(** Where the pattern stops on a longer text, it stops on the text itself,
    unless the text is only letters of the run and white space. *)
Lemma stop_app (taken : bool) prev c s x m :
  (if taken && at_boundary prev (head_char (String c s +:+ x))
        && ws_then_dollar (String c s +:+ x)
   then Some EmptyString else None) = Some m →
  (if taken && at_boundary prev (head_char (String c s)) && ws_then_dollar (String c s)
   then Some EmptyString else None) = Some m ∨
  all_chars (λ a, is_upper a || is_space a) (String c s) = true.
Proof.
  change (head_char (String c s +:+ x)) with (Some c).
  change (head_char (String c s)) with (Some c).
  destruct (taken && at_boundary prev (Some c)); [|done].
  rewrite !andb_true_l.
  destruct (ws_then_dollar (String c s +:+ x)) eqn:E2; [|done].
  intros ?.
  apply ws_then_dollar_app in E2 as [E2|Hsp]; [left; by rewrite E2|right].
  eapply all_chars_weaken; [|done]. intros a Ha. simpl. by rewrite Ha, orb_true_r.
Qed.

Lemma upper_run_cons budget taken prev c s :
  upper_run (S budget) taken prev (String c s) =
  let stop :=
    if taken && at_boundary prev (head_char (String c s)) && ws_then_dollar (String c s)
    then Some EmptyString else None in
  if is_upper c then
    match upper_run budget true (Some c) s with
    | Some m => Some (String c m)
    | None => stop
    end
  else stop.
Proof. reflexivity. Qed.

Lemma upper_run_zero taken prev s :
  upper_run 0 taken prev s =
  if taken && at_boundary prev (head_char s) && ws_then_dollar s
  then Some EmptyString else None.
Proof. by destruct s. Qed.

Lemma upper_not_stop c s :
  is_upper c = true → ws_then_dollar (String c s) = false.
Proof.
  intros Hc. simpl.
  assert (is_space c = false) as ->.
  { destruct (is_space c) eqn:Hs; [|done]. apply space_not_upper in Hs. congruence. }
  destruct (Ascii.eqb_spec c "$"%char) as [->|]; [by vm_compute in Hc|done].
Qed.

Lemma upper_run_app budget taken prev s x m :
  upper_run budget taken prev (s +:+ x) = Some m →
  upper_run budget taken prev s = Some m ∨
  all_chars (λ a, is_upper a || is_space a) s = true.
Proof.
  revert taken prev s m.
  induction budget as [|b IH]; intros taken prev s m H;
    (destruct s as [|c s]; [by right|]).
  - rewrite upper_run_zero in *. by apply (stop_app taken prev c s x m).
  - rewrite app_cons, upper_run_cons in H. rewrite upper_run_cons.
    cbv zeta in *. rewrite <- app_cons in H.
    destruct (is_upper c) eqn:Hc; [|by apply (stop_app taken prev c s x m)].
    destruct (upper_run b true (Some c) (s +:+ x)) as [m1|] eqn:E.
    + simplify_eq. apply IH in E as [->|Hall]; [by left|right].
      simpl. by rewrite Hc, Hall.
    + exfalso. rewrite app_cons, (upper_not_stop _ _ Hc), andb_false_r in H. done.
Qed.

Lemma match_here_app prev s x m :
  match_here prev (s +:+ x) = Some m →
  match_here prev s = Some m ∨
  all_chars (λ a, is_upper a || is_space a) s = true.
Proof.
  destruct s as [|c s]; [by right|].
  unfold match_here. rewrite app_cons. simpl head_char. rewrite <- app_cons.
  destruct (at_boundary prev (Some c)); [|done]. apply upper_run_app.
Qed.

Lemma match_here_mono prev s x m :
  match_here prev s = Some m → match_here prev (s +:+ x) = Some m.
Proof.
  rewrite !match_here_spec. intros (Hp & post & -> & Hup & Hlen & Hws).
  split; [done|]. exists (post +:+ x). rewrite string_app_assoc.
  split; [done|]. split; [done|]. split; [done|]. by apply ws_then_dollar_mono.
Qed.

Lemma search_has_dollar prev s w :
  search prev s = Some w →
  all_chars (λ a, is_upper a || is_space a) s = false.
Proof.
  intros (pre & post & (-> & _ & _ & _ & (ws & rest & -> & _)) & _)%search_sound.
  rewrite !all_chars_app. simpl. by rewrite !andb_false_r.
Qed.

Lemma search_app prev s x w :
  search prev s = Some w → search prev (s +:+ x) = Some w.
Proof.
  revert prev. induction s as [|c s IH]; intros prev.
  - simpl. unfold match_here. by destruct (at_boundary prev (head_char "")).
  - intros Hs. pose proof Hs as Hs0. rewrite app_cons. simpl in Hs |- *.
    rewrite <- app_cons.
    destruct (match_here prev (String c s)) as [m|] eqn:E.
    + simplify_eq. by rewrite (match_here_mono _ _ x _ E).
    + destruct (match_here prev (String c s +:+ x)) as [m'|] eqn:E'; [|by apply IH].
      apply match_here_app in E' as [E'|Hall]; [congruence|].
      apply search_has_dollar in Hs0. congruence.
Qed.

(** X5. Text added after a title that has a ticker does not change the
    ticker. *)
Theorem ticker_stable_under_appending (title extra : string) :
  ticker title ≠ "-" → ticker (title +:+ extra) = ticker title.
Proof.
  unfold ticker, ticker_match.
  destruct (search None title) as [w|] eqn:E; [|done].
  intros _. by rewrite (search_app _ _ extra _ E).
Qed.

Lemma ticker_stable_under_appending_witness :
  ticker ("Buy AAPL $150" +:+ " and SELL TSLA $700") = ticker "Buy AAPL $150".
Proof.
  exact (ticker_stable_under_appending "Buy AAPL $150" " and SELL TSLA $700"
           ltac:(by vm_compute)).
Defined.

(** ** [login] and the login of all accounts *)

(** [login] only looks at the site after 0, 1, ..., 5 submissions. *)
Ltac login_cases st :=
  unfold login; cbn [login_loop];
  repeat (match goal with
          | |- context [st ?k] => destruct (st k) eqn:?
          end; cbn [andb Nat.ltb Nat.leb]).

(** X6. [login] submits the form until the browser has left the sign-in page,
    five times at most, and exactly five times when it fails: the browser
    was on the sign-in page before each submission, the flag returned says whether it has left it in the end,
    which it has exactly when the site lets it through within five
    submissions; a browser that is not on the sign-in page to begin with
    makes no submission and no log entry. *)
Theorem login_stops_at_first_success (st : Site) (email password : string) :
  let '(ok, n, ev) := login st email password in
  (n ≤ 5)%nat ∧
  (ok = false → n = 5%nat) ∧
  (∀ k, (k < n)%nat → st k = true) ∧
  ok = negb (st n) ∧
  (ok = true ↔ ∃ k, (k ≤ 5)%nat ∧ st k = false) ∧
  length (submit_calls ev) = n ∧
  (st 0%nat = false → ok = true ∧ ev = []).
Proof.
  login_cases st; try congruence;
    (split_and!;
     [ lia
     | done
     | intros k Hk; do 5 (destruct k as [|k]; [done || lia|]); lia
     | done
     | split;
       [ intros; first [done | (eexists; split; [|eassumption]; lia)]
       | intros (k & Hk & Hs); first [done |
         (do 6 (destruct k as [|k]; [congruence|]); lia)] ]
     | done
     | intros; by simplify_eq ]).
Qed.






(** ** [fetch_alert_details] *)

Section FetchProperties.

Variable edt_of_iso : string -> Parsed.
Variable now_edt : string.

(** X9. [fetch_alert_details] raises exactly when [session.get] raises or when
    the page shows all three items and the time stamp cannot be read; it
    returns an alert exactly when the page shows all three items and the
    time stamp can be read, and the alert then carries the header and the
    price as found, the converted time stamp and the current time; it
    returns [None] exactly when one of the three items is not found. *)
Theorem fetch_alert_details_outcomes (r : Response) :
  let f := (fetch_alert_details edt_of_iso now_edt r).1 in
  (∀ e, f = FetchRaises e ↔
        r = GetRaises e ∨
        ∃ page d, r = Got page ∧ page_complete page = true ∧
                  time_datetime page = Found d ∧
                  edt_of_iso (replace_Z d) = ParseRaises e) ∧
  (∀ a, f = FetchAlert a ↔
        ∃ page d, r = Got page ∧
                  article_header page = Found (title a) ∧
                  live_price page = Found (price a) ∧
                  time_datetime page = Found d ∧
                  edt_of_iso (replace_Z d) = ParsedAs (created_at a) ∧
                  current_time a = now_edt) ∧
  (f = FetchNone ↔ ∃ page, r = Got page ∧ page_complete page = false).
Proof.
  intros f. subst f. unfold fetch_alert_details, page_complete.
  assert (Hinj : ∀ a t p c n, title a = t → price a = p → created_at a = c →
    current_time a = n →
    FetchAlert {| title := t; price := p; created_at := c; current_time := n |}
    = FetchAlert a).
  { intros [] ???? ????; simpl in *. congruence. }
  destruct r as [e0|[h p t]]; cbn [article_header live_price time_datetime fst];
    [|destruct h as [|ht|eh], p as [|pt|ep], t as [|tt|et];
      cbn [is_found andb fst];
      try destruct (edt_of_iso (replace_Z tt)) as [c|e1] eqn:E; cbn [fst]];
    (split_and!; [intros e|intros a|]);
    (split;
     [ intros ?; simplify_eq;
       first [ done | by left | right; do 2 eexists; by split_and!
             | do 2 eexists; by split_and! | eexists; by split_and! ]
     | intros H; decompose [ex and or] H; simplify_eq/=;
       first [ done | congruence | apply Hinj; congruence ] ]).
Qed.

(** X10. [fetch_alert_details] writes a log entry only when it returns [None],
    and then one at most: none when the header or the price is not on the
    page, one error when a lookup raised or the time element is not there. *)
Theorem fetch_alert_details_logs (r : Response) :
  let '(f, ev) := fetch_alert_details edt_of_iso now_edt r in
  (f ≠ FetchNone → ev = []) ∧
  (ev = [] ∨ ∃ t, ev = [EvLog ERROR t]) ∧
  (∀ page, r = Got page →
     article_header page = Missing ∨
     (is_found (article_header page) = true ∧ live_price page = Missing) →
     ev = []) ∧
  (∀ page, r = Got page → page_complete page = false →
     article_header page ≠ Missing →
     (is_found (article_header page) = true → live_price page ≠ Missing) →
     length (error_logs ev) = 1%nat).
Proof.
  unfold fetch_alert_details, page_complete.
  destruct r as [e0|[h p t]]; cbn [article_header live_price time_datetime].
  { split_and!; [done|by left|done|done]. }
  destruct h as [|ht|eh], p as [|pt|ep], t as [|tt|et];
    cbn [is_found andb];
    try (split_and!; [done| (by left) || (right; by eexists) | naive_solver
                     | intros; simplify_eq/=; naive_solver]).
  destruct (edt_of_iso (replace_Z tt)) as [c|e1];
    (split_and!; [done|by left|done|intros; simplify_eq/=]).
Qed.

(** X11. A page on which one of the three items is not found is passed over:
    the session is fetched, nothing is sent, the stored alert is left as it
    was and the pass goes on after the longer pause. *)
Theorem incomplete_page_passed_over (page : Page) (tg wr : CallResult) (k : nat)
    (session : Session) (last : gmap string string) :
  page_complete page = false →
  poll_response edt_of_iso now_edt (Got page) tg wr k session last =
    (Normal, last,
     [EvFetch k session; EvLog INFO "Current alert not interesting to us...";
      EvSleep 700]).
Proof.
  unfold poll_response, poll_session, fetch_alert_details, page_complete.
  destruct page as [h p t]. cbn [article_header live_price time_datetime].
  by destruct h, p, t.
Qed.

(** X12. A complete page whose header differs from the stored title is
    dispatched with the texts of the page: the notification, which names the
    header, the price, the converted time stamp and the current time, is
    sent whatever the senders do; the message bus gets the payload derived
    from the header exactly when the notification call returned; the header
    and the converted time stamp become the stored alert when both senders
    return, and the stored alert is left as it was when either raises. *)
Theorem complete_page_dispatched (page : Page) (t p d c : string)
    (tg wr : CallResult) (k : nat) (session : Session)
    (last : gmap string string) :
  article_header page = Found t →
  live_price page = Found p →
  time_datetime page = Found d →
  edt_of_iso (replace_Z d) = ParsedAs c →
  last !! "title" ≠ Some t →
  let '(completion, last', ev) :=
    poll_response edt_of_iso now_edt (Got page) tg wr k session last in
  telegram_calls ev =
    ["Title: " +:+ t +:+ newline +:+ "Price: " +:+ p +:+ newline +:+
     "Created At: " +:+ c +:+ newline +:+ "Current Time: " +:+ now_edt] ∧
  (tg = Returns ↔
   ∃ payload, ws_calls ev = [payload] ∧
              payload !! "ticker" = Some (ticker t) ∧
              payload !! "type" = Some (signal_type t)) ∧
  (tg ≠ Returns → ws_calls ev = []) ∧
  (tg = Returns ∧ wr = Returns →
   completion = Normal ∧
   last' !! "title" = Some t ∧ last' !! "created_at" = Some c) ∧
  (¬ (tg = Returns ∧ wr = Returns) →
   (∃ e, completion = Raised e) ∧ last' = last).
Proof.
  intros Hh Hp Hd Hc Hnew.
  unfold poll_response, poll_session, fetch_alert_details.
  rewrite Hh, Hp, Hd, Hc. cbn [fst fetched telegram_result ws_result].
  assert (is_new {| title := t; price := p; created_at := c; current_time := now_edt |}
            last = true) as -> by by apply is_new_true.
  destruct tg as [|e1], wr as [|e2];
    (split_and!;
     [ done
     | split; [intros ?; first [done | by eexists] | by intros (? & ? & _)]
     | by intros ?
     | by intros [? ?]
     | intros Hn; first [by destruct Hn | split; [by eexists|done]] ]).
Qed.

End FetchProperties.

(** The theorem on a page that lacks the price. *)
Lemma incomplete_page_passed_over_witness :
  poll_response sample_edt_of_iso "2024-03-04 10:00:05 EST-0500"
    (Got page_without_price) Returns Returns 0
    {| sess_email := "b@x"; sess_authenticated := true |} ∅ =
  (Normal, ∅,
   [EvFetch 0 {| sess_email := "b@x"; sess_authenticated := true |};
    EvLog INFO "Current alert not interesting to us..."; EvSleep 700]).
Proof.
  exact (incomplete_page_passed_over sample_edt_of_iso "2024-03-04 10:00:05 EST-0500"
           page_without_price Returns Returns 0
           {| sess_email := "b@x"; sess_authenticated := true |} ∅ eq_refl).
Defined.

(** The theorem on the sample page, nothing stored yet, the message bus
    sender raising. *)
Lemma complete_page_dispatched_witness :
  let '(completion, last', ev) :=
    poll_response sample_edt_of_iso "2024-03-04 10:00:05 EST-0500"
      (Got sample_page) Returns (Raises "ws closed") 0
      {| sess_email := "b@x"; sess_authenticated := true |} ∅ in
  telegram_calls ev =
    ["Title: " +:+ "Buy AAPL $150" +:+ newline +:+
     "Price: " +:+ "$150.00" +:+ newline +:+
     "Created At: " +:+ "EDT 2024-03-04T15:00:00+00:00" +:+ newline +:+
     "Current Time: " +:+ "2024-03-04 10:00:05 EST-0500"] ∧
  (Returns = Returns ↔
   ∃ payload, ws_calls ev = [payload] ∧
              payload !! "ticker" = Some (ticker "Buy AAPL $150") ∧
              payload !! "type" = Some (signal_type "Buy AAPL $150")) ∧
  (Returns ≠ Returns → ws_calls ev = []) ∧
  (Returns = Returns ∧ Raises "ws closed" = Returns →
   completion = Normal ∧
   last' !! "title" = Some "Buy AAPL $150" ∧
   last' !! "created_at" = Some "EDT 2024-03-04T15:00:00+00:00") ∧
  (¬ (Returns = Returns ∧ Raises "ws closed" = Returns) →
   (∃ e, completion = Raised e) ∧ last' = ∅).
Proof.
  exact (complete_page_dispatched sample_edt_of_iso "2024-03-04 10:00:05 EST-0500"
           sample_page "Buy AAPL $150" "$150.00" "2024-03-04T15:00:00Z"
           "EDT 2024-03-04T15:00:00+00:00" Returns (Raises "ws closed") 0
           {| sess_email := "b@x"; sess_authenticated := true |} ∅
           eq_refl eq_refl eq_refl eq_refl ltac:(by rewrite lookup_empty)).
Defined.

Lemma replace_Z_app (s t : string) :
  replace_Z (s +:+ t) = replace_Z s +:+ replace_Z t.
Proof.
  induction s as [|c s IH]; [done|]. rewrite app_cons. simpl.
  destruct (Ascii.eqb c "Z"); rewrite IH; [|done].
  by rewrite <- string_app_assoc.
Qed.

Lemma replace_Z_without_Z (s : string) :
  all_chars (λ c, negb (Ascii.eqb c "Z")) s = true → replace_Z s = s.
Proof.
  induction s as [|c s IH]; [done|]. simpl.
  intros [Hc Hs]%andb_true_iff. apply negb_true_iff in Hc. by rewrite Hc, IH.
Qed.

Lemma replace_Z_no_Z (s : string) :
  all_chars (λ c, negb (Ascii.eqb c "Z")) (replace_Z s) = true.
Proof.
  induction s as [|c s IH]; [done|]. simpl.
  destruct (Ascii.eqb c "Z") eqn:E.
  - by rewrite all_chars_app, IH.
  - simpl. by rewrite E, IH.
Qed.

(** X13. [replace("Z", "+00:00")] leaves no "Z" behind, leaves a text alone
    exactly when it has no "Z", changes nothing when applied twice, works
    piece by piece, so that a time stamp ending in "Z" ends in the explicit
    offset, and never shortens the text. *)
Theorem replace_Z_properties (s : string) :
  all_chars (λ c, negb (Ascii.eqb c "Z")) (replace_Z s) = true ∧
  (replace_Z s = s ↔ all_chars (λ c, negb (Ascii.eqb c "Z")) s = true) ∧
  replace_Z (replace_Z s) = replace_Z s ∧
  (∀ t, replace_Z (s +:+ t) = replace_Z s +:+ replace_Z t) ∧
  replace_Z (s +:+ "Z") = replace_Z s +:+ "+00:00" ∧
  (String.length s ≤ String.length (replace_Z s))%nat.
Proof.
  split_and!.
  - apply replace_Z_no_Z.
  - split; [|apply replace_Z_without_Z].
    intros Heq. rewrite <- Heq. apply replace_Z_no_Z.
  - apply replace_Z_without_Z, replace_Z_no_Z.
  - intros t. apply replace_Z_app.
  - by rewrite replace_Z_app.
  - induction s as [|c s IH]; [done|]. simpl.
    destruct (Ascii.eqb c "Z"); [|simpl; lia].
    rewrite string_app_length. simpl. lia.
Qed.

(** ** The monitoring pass *)

(** X14. A pass polls the sessions in the order of the list, each once at most,
    from the first on without a gap; it polls all of them when no poll
    raises. *)
Theorem pass_polls_in_order (w : nat → PollEnv) (index : nat) (ss : list Session)
    (last : gmap string string) :
  let '(c, _, ev) := poll_sessions w index ss last in
  ∃ k, (k ≤ length ss)%nat ∧ fetch_calls ev = seq index k ∧
       (c = Normal → k = length ss) ∧
       (ss ≠ [] → (1 ≤ k)%nat).
Proof.
  revert index last. induction ss as [|session ss IH]; intros index last.
  - exists 0%nat. by split_and!.
  - cbn [poll_sessions].
    pose proof (poll_session_fetch (w index) index session last) as Hf.
    destruct (poll_session (w index) index session last) as [[[|e] l1] ev1];
      cbn [snd] in Hf.
    + specialize (IH (S index) l1).
      destruct (poll_sessions w (S index) ss l1) as [[c l2] ev2].
      destruct IH as (k & Hk & Hfk & Hn & _).
      exists (S k). rewrite fetch_calls_app, Hf, Hfk. simpl.
      split_and!; [lia|done|intros ?; f_equal; auto|lia].
    + exists 1%nat. rewrite Hf. simpl. split_and!; [lia|done|done|lia].
Qed.

Lemma poll_session_counts w k session last :
  let ev := (poll_session w k session last).2 in
  (length (ws_calls ev) ≤ length (telegram_calls ev) ≤ 1)%nat.
Proof.
  unfold poll_session. destruct (fetched w) as [|a|e]; cbn; [lia| |lia].
  destruct (is_new a last); [|cbn; lia].
  destruct (telegram_result w), (ws_result w); cbn; lia.
Qed.

Lemma poll_sessions_counts w index ss last :
  let ev := (poll_sessions w index ss last).2 in
  (length (ws_calls ev) ≤ length (telegram_calls ev) ≤ length (fetch_calls ev))%nat.
Proof.
  revert index last. induction ss as [|session ss IH]; intros index last.
  - cbn. lia.
  - cbn [poll_sessions].
    pose proof (poll_session_fetch (w index) index session last) as Hf.
    pose proof (poll_session_counts (w index) index session last) as Hc.
    destruct (poll_session (w index) index session last) as [[[|e] l1] ev1];
      cbn [snd] in *.
    + specialize (IH (S index) l1).
      destruct (poll_sessions w (S index) ss l1) as [[c l2] ev2]. cbn [snd] in *.
      unfold ws_calls, telegram_calls, fetch_calls in *.
      rewrite !omap_app, !length_app, Hf. simpl. lia.
    + rewrite Hf. simpl. lia.
Qed.

Lemma login_events_silent ev :
  forallb login_event ev = true →
  fetch_calls ev = [] ∧ telegram_calls ev = [] ∧ ws_calls ev = [] ∧ pace ev = [].
Proof.
  induction ev as [|e ev IH]; [done|]. simpl.
  intros [He Hev]%andb_true_iff. destruct (IH Hev) as (? & ? & ? & ?).
  by destruct e.
Qed.

Lemma forallb_app' {A} (p : A → bool) l1 l2 :
  forallb p (l1 ++ l2) = forallb p l1 && forallb p l2.
Proof. induction l1 as [|x l1 IH]; [done|]. simpl. by rewrite IH, andb_assoc. Qed.

Lemma login_loop_events st email password fuel retry_count :
  forallb login_event (login_loop st email password fuel retry_count).2 = true.
Proof.
  revert retry_count. induction fuel as [|fuel IH]; intros rc; simpl; [done|].
  destruct (st rc && (rc <? 5)%nat); [|done].
  specialize (IH (S rc)).
  destruct (login_loop st email password fuel (S rc)) as [n ev]. cbn [snd] in *.
  by destruct (0 <? rc)%nat.
Qed.

Lemma login_accounts_events st index accounts :
  forallb login_event (login_accounts st index accounts).2 = true.
Proof.
  revert index. induction accounts as [|[email password] accounts IH]; intros index.
  - done.
  - cbn [login_accounts]. unfold login.
    pose proof (login_loop_events (st email password) email password 5 0) as Hl.
    destruct (login_loop (st email password) email password 5 0) as [n ev].
    specialize (IH (S index)).
    destruct (login_accounts st (S index) accounts) as [ss ev']. cbn [snd] in *.
    destruct (st email password n); cbn [snd];
      rewrite !forallb_app', ?Hl, IH; done.
Qed.

Lemma step_counts accounts i s :
  let ev := (step accounts i s).2 in
  (length (ws_calls ev) ≤ length (telegram_calls ev) ≤ length (fetch_calls ev))%nat.
Proof.
  unfold step. destruct (branch (first_time_ever s) i).
  - destruct (logged_in s); [cbn; lia|].
    pose proof (login_accounts_events (site i) 0 accounts) as Hl.
    destruct (login_accounts (site i) 0 accounts) as [ss ev]. cbn [snd] in *.
    assert (forallb login_event
      ([EvLog INFO "Logging in..."] ++ ev ++
       [EvLog INFO "All accounts logged in. Starting monitoring..."]) = true) as H.
    { by rewrite !forallb_app', Hl. }
    apply login_events_silent in H as (-> & -> & -> & _). simpl. lia.
  - pose proof (poll_sessions_counts (world i) 0 (sessions s) (last_alert_details s)) as Hc.
    destruct (poll_sessions (world i) 0 (sessions s) (last_alert_details s))
      as [[c l] ev]. cbn [snd] in *.
    unfold ws_calls, telegram_calls, fetch_calls in *.
    rewrite !omap_app, !length_app.
    destruct (market_is_open s), c; simpl; lia.
  - cbn. lia.
Qed.

(** X15. Over any run of the loop, the message bus is never called more often
    than the notification sender, and the notification sender never more
    often than the feed was fetched: nothing is sent that was not fetched,
    and the bus never gets a signal whose notification was not attempted. *)
Theorem sends_never_outnumber_fetches accounts inputs s :
  let ev := (run accounts inputs s).2 in
  (length (ws_calls ev) ≤ length (telegram_calls ev) ≤ length (fetch_calls ev))%nat.
Proof.
  revert s. induction inputs as [|i inputs IH]; intros s.
  - cbn. lia.
  - cbn [run]. pose proof (step_counts accounts i s) as Hs.
    destruct (step accounts i s) as [s1 ev1]. specialize (IH s1).
    destruct (run accounts inputs s1) as [s2 ev2]. cbn [snd] in *.
    unfold ws_calls, telegram_calls, fetch_calls in *.
    rewrite !omap_app, !length_app. lia.
Qed.

Lemma telegram_calls_app ev1 ev2 :
  telegram_calls (ev1 ++ ev2) = telegram_calls ev1 ++ telegram_calls ev2.
Proof. apply omap_app. Qed.

Lemma ws_calls_app ev1 ev2 :
  ws_calls (ev1 ++ ev2) = ws_calls ev1 ++ ws_calls ev2.
Proof. apply omap_app. Qed.

Lemma poll_sessions_all_seen (a : AlertDetails) index ss (last : gmap string string) :
  last !! "title" = Some (title a) →
  poll_sessions (same_for_all a) index ss last =
    (Normal, last, flat_map (λ '(k, s), [EvFetch k s; EvSleep 600])
                            (zip (seq index (length ss)) ss)).
Proof.
  intros Hseen. revert index.
  induction ss as [|session ss IH]; intros index; [done|].
  cbn [poll_sessions]. unfold poll_session at 1. cbn [same_for_all fetched].
  apply is_new_false in Hseen as ->. by rewrite IH.
Qed.

Lemma calls_of_seen_polls (l : list (nat * Session)) :
  telegram_calls (flat_map (λ '(k, s), [EvFetch k s; EvSleep 600]) l) = [] ∧
  ws_calls (flat_map (λ '(k, s), [EvFetch k s; EvSleep 600]) l) = [].
Proof. induction l as [|[k s] l [IH1 IH2]]; [done|]. simpl. by rewrite IH1, IH2. Qed.

(** X16. When every account shows the same new alert and both senders answer,
    the alert is dispatched once, for the first session; the other sessions
    are fetched and passed over, and the alert is stored. *)
Theorem same_alert_dispatched_once (a : AlertDetails) (index : nat)
    (session : Session) (ss : list Session) (last : gmap string string) :
  last !! "title" ≠ Some (title a) →
  let '(c, last', ev) := poll_sessions (same_for_all a) index (session :: ss) last in
  c = Normal ∧
  telegram_calls ev = [message_of a] ∧
  ws_calls ev = [payload_of a] ∧
  fetch_calls ev = seq index (S (length ss)) ∧
  last' = seen_mark a.
Proof.
  intros Hnew. cbn [poll_sessions]. unfold poll_session at 1.
  cbn [same_for_all fetched telegram_result ws_result].
  apply is_new_true in Hnew as ->.
  rewrite (poll_sessions_all_seen a (S index) ss (seen_mark a) (seen_mark_title a)).
  destruct (calls_of_seen_polls (zip (seq (S index) (length ss)) ss)) as [Ht Hw].
  pose proof (poll_sessions_normal_fetch (same_for_all a) (S index) ss (seen_mark a)
    _ _ (poll_sessions_all_seen a (S index) ss (seen_mark a) (seen_mark_title a))) as Hf.
  split_and!; [done| | | |done].
  - by rewrite telegram_calls_app, Ht.
  - by rewrite ws_calls_app, Hw.
  - by rewrite fetch_calls_app, Hf.
Qed.

(** The theorem on three sessions that all show the same alert. *)
Lemma same_alert_dispatched_once_witness :
  let a := alert_titled "Buy AAPL $150" in
  let '(c, last', ev) :=
    poll_sessions (same_for_all a) 0 three_sessions ∅ in
  c = Normal ∧
  telegram_calls ev = [message_of a] ∧
  ws_calls ev = [payload_of a] ∧
  fetch_calls ev = [0; 1; 2]%nat ∧
  last' = seen_mark a.
Proof.
  exact (same_alert_dispatched_once (alert_titled "Buy AAPL $150") 0
           {| sess_email := "a@x"; sess_authenticated := true |}
           [ {| sess_email := "b@x"; sess_authenticated := true |};
             {| sess_email := "c@x"; sess_authenticated := true |} ] ∅
           ltac:(by rewrite lookup_empty)).
Defined.

(** X17. When two accounts show alerts with different titles and both
    senders return at both polls, a pass stores the title the second account
    shows, so the next pass finds the first account's alert new again: from
    then on each such pass dispatches both alerts, pass after pass. *)
Theorem disagreeing_accounts_dispatch_every_pass (a b : AlertDetails)
    (w : nat → PollEnv) (index : nat) (s1 s2 : Session)
    (last : gmap string string) :
  title a ≠ title b →
  w index = {| fetched := FetchAlert a;
               telegram_result := Returns; ws_result := Returns |} →
  w (S index) = {| fetched := FetchAlert b;
                   telegram_result := Returns; ws_result := Returns |} →
  let pass l := poll_sessions w index [s1; s2] l in
  (pass last).1.1 = Normal ∧
  (pass last).1.2 = seen_mark b ∧
  pass (seen_mark b) =
    (Normal, seen_mark b,
     [EvFetch index s1; EvTelegram (message_of a); EvWs (payload_of a);
      EvLog INFO ("New alert sent: " +:+ message_of a); EvSleep 600;
      EvFetch (S index) s2; EvTelegram (message_of b); EvWs (payload_of b);
      EvLog INFO ("New alert sent: " +:+ message_of b); EvSleep 600]).
Proof.
  intros Hne Hw1 Hw2 pass. subst pass. cbn beta.
  assert (Hab : is_new b (seen_mark a) = true).
  { apply is_new_true. rewrite seen_mark_title. congruence. }
  assert (Hba : is_new a (seen_mark b) = true).
  { apply is_new_true. rewrite seen_mark_title. congruence. }
  cbn [poll_sessions]. unfold poll_session. rewrite Hw1, Hw2.
  cbn [fetched telegram_result ws_result].
  split_and!.
  - destruct (is_new a last); cbn [fst snd]; [by rewrite Hab|].
    by destruct (is_new b last).
  - destruct (is_new a last) eqn:E; cbn [fst snd].
    + by rewrite Hab.
    + destruct (is_new b last) eqn:E'; [done|].
      apply is_new_false in E, E'. congruence.
  - by rewrite Hba, Hab.
Qed.

(** The theorem on a Buy and a Sell alert. *)
Lemma disagreeing_accounts_dispatch_every_pass_witness :
  let a := alert_titled "Buy AAPL $150" in
  let b := alert_titled "SELL TSLA $700" in
  let s1 := {| sess_email := "a@x"; sess_authenticated := true |} in
  let s2 := {| sess_email := "b@x"; sess_authenticated := true |} in
  let pass l := poll_sessions (split_view 0 a b) 0 [s1; s2] l in
  (pass ∅).1.1 = Normal ∧
  (pass ∅).1.2 = seen_mark b ∧
  pass (seen_mark b) =
    (Normal, seen_mark b,
     [EvFetch 0 s1; EvTelegram (message_of a); EvWs (payload_of a);
      EvLog INFO ("New alert sent: " +:+ message_of a); EvSleep 600;
      EvFetch 1 s2; EvTelegram (message_of b); EvWs (payload_of b);
      EvLog INFO ("New alert sent: " +:+ message_of b); EvSleep 600]).
Proof.
  exact (disagreeing_accounts_dispatch_every_pass
           (alert_titled "Buy AAPL $150") (alert_titled "SELL TSLA $700")
           (split_view 0 (alert_titled "Buy AAPL $150")
                         (alert_titled "SELL TSLA $700")) 0
           {| sess_email := "a@x"; sess_authenticated := true |}
           {| sess_email := "b@x"; sess_authenticated := true |} ∅
           ltac:(by vm_compute) eq_refl eq_refl).
Defined.

(** ** The loop *)

Lemma pace_app ev1 ev2 : pace (ev1 ++ ev2) = pace ev1 ++ pace ev2.
Proof. apply omap_app. Qed.

Lemma fetch_then_pause_add n m :
  fetch_then_pause (n + m) = fetch_then_pause n ++ fetch_then_pause m.
Proof. induction n as [|n IH]; [done|]. simpl. by rewrite IH. Qed.

(** One poll is a fetch followed by a pause, or a fetch alone when it
    raises. *)
Lemma poll_session_pace w k session last :
  let '(c, _, ev) := poll_session w k session last in
  pace ev = if c is Normal then [true; false] else [true].
Proof.
  unfold poll_session. destruct (fetched w) as [|a|e]; [done| |done].
  destruct (is_new a last); [|done].
  by destruct (telegram_result w), (ws_result w).
Qed.

Lemma poll_sessions_pace w index ss last :
  let '(c, _, ev) := poll_sessions w index ss last in
  ∃ n, pace ev = fetch_then_pause n ++ (if c is Normal then [] else [true]).
Proof.
  revert index last. induction ss as [|session ss IH]; intros index last.
  - by exists 0%nat.
  - cbn [poll_sessions].
    pose proof (poll_session_pace (w index) index session last) as Hp.
    destruct (poll_session (w index) index session last) as [[[|e] l1] ev1].
    + specialize (IH (S index) l1).
      destruct (poll_sessions w (S index) ss l1) as [[c l2] ev2].
      destruct IH as [n Hn]. exists (S n). by rewrite pace_app, Hp, Hn.
    + exists 0%nat. by rewrite Hp.
Qed.

Lemma step_pace accounts i s :
  ∃ n, pace (step accounts i s).2 = fetch_then_pause n.
Proof.
  unfold step. destruct (branch (first_time_ever s) i).
  - exists 0%nat. destruct (logged_in s); [done|].
    pose proof (login_accounts_events (site i) 0 accounts) as Hl.
    destruct (login_accounts (site i) 0 accounts) as [ss ev]. cbn [snd] in *.
    assert (forallb login_event
      ([EvLog INFO "Logging in..."] ++ ev ++
       [EvLog INFO "All accounts logged in. Starting monitoring..."]) = true) as H.
    { by rewrite !forallb_app', Hl. }
    by apply login_events_silent in H as (_ & _ & _ & ->).
  - pose proof (poll_sessions_pace (world i) 0 (sessions s) (last_alert_details s)) as Hp.
    destruct (poll_sessions (world i) 0 (sessions s) (last_alert_details s))
      as [[c l] ev]. cbn [snd]. destruct Hp as [n Hn].
    assert (pace (if market_is_open s then []
                  else [EvLog INFO "Market is open, starting monitoring..."]) = [])
      as Ho by by destruct (market_is_open s).
    rewrite !pace_app, Ho, Hn. destruct c as [|e].
    + exists n. change (pace []) with (@nil bool). by rewrite !app_nil_l, !app_nil_r.
    + exists (n + 1)%nat. rewrite fetch_then_pause_add, app_nil_l, <- app_assoc.
      done.
  - by exists 0%nat.
Qed.

(** X18. Over any run of the loop, fetches and pauses alternate: every fetch of
    the feed page is followed by a pause before the next fetch, also when
    the poll raised, and the loop never pauses without having fetched. *)
Theorem every_fetch_followed_by_pause accounts inputs s :
  ∃ n, pace (run accounts inputs s).2 = fetch_then_pause n.
Proof.
  revert s. induction inputs as [|i inputs IH]; intros s.
  - by exists 0%nat.
  - cbn [run]. destruct (step_pace accounts i s) as [n Hn].
    destruct (step accounts i s) as [s1 ev1]. destruct (IH s1) as [m Hm].
    destruct (run accounts inputs s1) as [s2 ev2]. cbn [snd] in *.
    exists (n + m)%nat. by rewrite pace_app, Hn, Hm, fetch_then_pause_add.
Qed.

Lemma step_sessions accounts i s :
  sess_email <$> sessions s = accounts.*1 →
  sess_email <$> sessions (step accounts i s).1 = accounts.*1.
Proof.
  intros Hs. unfold step. destruct (branch (first_time_ever s) i).
  - destruct (logged_in s); [done|].
    pose proof (login_accounts_sessions (site i) 0 accounts) as Hl.
    destruct (login_accounts (site i) 0 accounts) as [ss ev]. by destruct Hl.
  - by destruct (poll_sessions (world i) 0 (sessions s) (last_alert_details s))
      as [[c l] ev].
  - done.
Qed.

Lemma run_sessions accounts inputs s :
  sess_email <$> sessions s = accounts.*1 →
  sess_email <$> sessions (run accounts inputs s).1 = accounts.*1.
Proof.
  revert s. induction inputs as [|i inputs IH]; intros s Hs; [done|].
  cbn [run]. pose proof (step_sessions accounts i s Hs) as H1.
  destruct (step accounts i s) as [s1 ev1]. specialize (IH s1 H1).
  by destruct (run accounts inputs s1).
Qed.

(** X19. From the start of the process on, after at least one iteration, the
    session list holds one session per configured account, in the order of
    the configuration, and [first_time_ever] is cleared; in particular the
    list is bound before any poll reads it. *)
Theorem sessions_follow_accounts accounts (i : Input) (inputs : list Input) :
  let s := (run accounts (i :: inputs) initial_state).1 in
  sess_email <$> sessions s = accounts.*1 ∧
  length (sessions s) = length accounts ∧
  first_time_ever s = false.
Proof.
  cbn [run].
  assert (H1 : sess_email <$> sessions (step accounts i initial_state).1 = accounts.*1).
  { unfold step, branch. cbn [first_time_ever logged_in initial_state].
    rewrite orb_true_r.
    pose proof (login_accounts_sessions (site i) 0 accounts) as Hl.
    destruct (login_accounts (site i) 0 accounts) as [ss ev]. by destruct Hl. }
  assert (H2 : first_time_ever (step accounts i initial_state).1 = false).
  { unfold step, branch. cbn [first_time_ever logged_in initial_state].
    rewrite orb_true_r. by destruct (login_accounts (site i) 0 accounts). }
  destruct (step accounts i initial_state) as [s1 ev1]. cbn [fst] in *.
  pose proof (run_sessions accounts inputs s1 H1) as H3.
  pose proof (run_first_time_ever accounts inputs s1 H2) as H4.
  destruct (run accounts inputs s1) as [s2 ev2]. cbn [fst] in *.
  split_and!; [done| |done].
  by rewrite <- (length_fmap sess_email), H3, length_fmap.
Qed.

(** X20. Once the accounts are logged in, the iterations of the pre-open window
    do nothing: no second login, no call at all, the sessions and the stored
    alert are kept. *)
Theorem logged_in_waits_for_the_open accounts inputs s :
  logged_in s = true →
  Forall (λ i, in_pre_open i = true) inputs →
  let '(s', ev) := run accounts inputs s in
  ev = [] ∧
  sessions s' = sessions s ∧
  logged_in s' = true ∧
  last_alert_details s' = last_alert_details s ∧
  market_is_open s' = market_is_open s.
Proof.
  intros Hl Hall. revert s Hl.
  induction Hall as [|i inputs Hi _ IH]; intros s Hl; [done|].
  cbn [run]. unfold step, branch. rewrite Hi, Hl. cbn [orb].
  match goal with |- context [run accounts inputs ?s1] =>
    specialize (IH s1 eq_refl); destruct (run accounts inputs s1) as [s2 ev2] end.
  cbn [sessions logged_in last_alert_details market_is_open] in IH.
  destruct IH as (-> & ? & ? & ? & ?). by split_and!.
Qed.

(** The theorem on two iterations before the open, one account logged in. *)
Lemma logged_in_waits_for_the_open_witness :
  let '(s', ev) :=
    run one_account [at_time 0 150 (λ _, quiet); at_time 0 160 (λ _, quiet)]
        after_dispatch in
  ev = [] ∧
  sessions s' = sessions after_dispatch ∧
  logged_in s' = true ∧
  last_alert_details s' = last_alert_details after_dispatch ∧
  market_is_open s' = market_is_open after_dispatch.
Proof.
  exact (logged_in_waits_for_the_open one_account
           [at_time 0 150 (λ _, quiet); at_time 0 160 (λ _, quiet)]
           after_dispatch eq_refl ltac:(repeat constructor)).
Defined.

(** X21. The CLOSED branch clears [logged_in] and keeps the sessions; the next
    iteration of a pre-open window logs every account in again and replaces
    the whole session list. *)
Theorem close_then_login_again accounts (closed login_time : Input) s :
  branch (first_time_ever s) closed = CLOSED →
  in_pre_open login_time = true →
  let '(s1, ev1) := step accounts closed s in
  let '(s2, ev2) := step accounts login_time s1 in
  ev1 = [EvSleepUntilOpen] ∧
  sessions s1 = sessions s ∧
  logged_in s1 = false ∧
  sessions s2 = (login_accounts (site login_time) 0 accounts).1 ∧
  logged_in s2 = true ∧
  last_alert_details s2 = last_alert_details s.
Proof.
  intros Hc Hp.
  destruct (step accounts closed s) as [s1 ev1] eqn:E1.
  unfold step in E1. rewrite Hc in E1. simplify_eq.
  unfold step, branch. rewrite Hp. cbn [orb logged_in].
  destruct (login_accounts (site login_time) 0 accounts) as [ss ev].
  by split_and!.
Qed.

(** The theorem on the close of one day and the login of the next. *)
Lemma close_then_login_again_witness :
  let closed := at_time 0 350 (λ _, quiet) in
  let login_time := at_time 1000 150 (λ _, quiet) in
  let '(s1, ev1) := step one_account closed after_dispatch in
  let '(s2, ev2) := step one_account login_time s1 in
  ev1 = [EvSleepUntilOpen] ∧
  sessions s1 = sessions after_dispatch ∧
  logged_in s1 = false ∧
  sessions s2 = (login_accounts (site login_time) 0 one_account).1 ∧
  logged_in s2 = true ∧
  last_alert_details s2 = last_alert_details after_dispatch.
Proof.
  exact (close_then_login_again one_account
           (at_time 0 350 (λ _, quiet)) (at_time 1000 150 (λ _, quiet))
           after_dispatch eq_refl eq_refl).
Defined.

Lemma poll_session_events w k session last :
  submit_calls (poll_session w k session last).2 = [] ∧
  scroll_calls (poll_session w k session last).2 = [].
Proof.
  unfold poll_session. destruct (fetched w) as [|a|e]; [done| |done].
  destruct (is_new a last); [|done].
  by destruct (telegram_result w), (ws_result w).
Qed.

Lemma poll_sessions_events w index ss last :
  submit_calls (poll_sessions w index ss last).2 = [] ∧
  scroll_calls (poll_sessions w index ss last).2 = [].
Proof.
  revert index last. induction ss as [|session ss IH]; intros index last; [done|].
  cbn [poll_sessions].
  destruct (poll_session_events (w index) index session last) as [H1 H2].
  destruct (poll_session (w index) index session last) as [[[|e] l1] ev1];
    cbn [snd] in *; [|done].
  destruct (IH (S index) l1) as [H3 H4].
  destruct (poll_sessions w (S index) ss l1) as [[c l2] ev2]. cbn [snd] in *.
  unfold submit_calls, scroll_calls in *. by rewrite !omap_app, H1, H2, H3, H4.
Qed.

(** X22. An OPEN iteration only polls: it submits no login form, changes neither
    the session list nor [logged_in], and it polls the sessions it finds
    whether [logged_in] is set or not, starting with the first. *)
Theorem open_iteration_only_polls accounts i s :
  branch (first_time_ever s) i = OPEN →
  let '(s', ev) := step accounts i s in
  submit_calls ev = [] ∧
  scroll_calls ev = [] ∧
  sessions s' = sessions s ∧
  logged_in s' = logged_in s ∧
  market_is_open s' = true ∧
  (sessions s ≠ [] → head (fetch_calls ev) = Some 0%nat).
Proof.
  intros Hb. unfold step. rewrite Hb.
  destruct (poll_sessions_events (world i) 0 (sessions s) (last_alert_details s))
    as [H1 H2].
  assert (H3 : sessions s ≠ [] →
    head (fetch_calls (poll_sessions (world i) 0 (sessions s)
                         (last_alert_details s)).2) = Some 0%nat).
  { destruct (sessions s) as [|s0 rest]; [done|]. intros _.
    apply poll_sessions_starts_at. }
  destruct (poll_sessions (world i) 0 (sessions s) (last_alert_details s))
    as [[c l] ev]. cbn [snd sessions logged_in market_is_open] in *.
  unfold submit_calls, scroll_calls in *.
  rewrite !omap_app, H1, H2, !fetch_calls_app.
  split_and!; [by destruct (market_is_open s), c..|done|done|done|].
  intros Hne. specialize (H3 Hne).
  destruct (market_is_open s); simpl; by destruct (fetch_calls ev).
Qed.

(** The theorem on an OPEN iteration that follows a close without a login:
    the sessions of the day before are polled although [logged_in] is
    cleared. *)
Lemma open_iteration_only_polls_witness :
  let stale := (step one_account (at_time 0 350 (λ _, quiet)) after_dispatch).1 in
  let '(s', ev) := step one_account (at_time 1000 250 (λ _, quiet)) stale in
  logged_in stale = false ∧
  submit_calls ev = [] ∧
  scroll_calls ev = [] ∧
  sessions s' = sessions stale ∧
  logged_in s' = logged_in stale ∧
  market_is_open s' = true ∧
  (sessions stale ≠ [] → head (fetch_calls ev) = Some 0%nat).
Proof.
  split; [reflexivity|].
  exact (open_iteration_only_polls one_account (at_time 1000 250 (λ _, quiet))
           (step one_account (at_time 0 350 (λ _, quiet)) after_dispatch).1 eq_refl).
Defined.
